(** * Verification of the SteamRIP catalogue scraper

    A shallow embedding of [scrape_steamrip.py]: the name normalizer
    ([clean_name]), the loops of the extractor ([extract_games_from_html])
    and of the scraper ([scrape]), the SQLite catalogue store and the
    synchronizer ([run_persist]), the two projectors
    ([save_all_games_from_db], [load_json_games] and
    [save_new_games_file]), and the part of [main] that persists and
    publishes.

    Conventions.
    - A Python [str] is the list of its Unicode code points ([list N]).
    - A [Dict[str, str]] holding a game is a record of what [.get] returns
      for its two keys ([None] when the key is missing).
    - The SQLite connection is the pair of the committed database and the
      connection's own view of it, which also holds the writes of the
      open transaction; [commit] copies the view to the committed side.
    - The clock ([datetime.now]) is an argument of [run_persist].
    - A function that can raise returns an [option], [None] when it
      raises; the store that can fail has its own outcome type. *)

From Stdlib Require Import List NArith Bool Lia String Ascii Permutation.
Import ListNotations.
Local Open Scope N_scope.
Local Open Scope list_scope.

(* ================================================================== *)
(** * Python strings *)

Definition str := list N.

(** An ASCII literal as a Python string. *)
Definition lit (s : string) : str := map N_of_ascii (list_ascii_of_string s).

Definition str_eqb (a b : str) : bool :=
  if list_eq_dec N.eq_dec a b then true else false.

(** [str.isspace] on one character, which is also what [\s] matches in a
    [str] pattern: the Unicode white space of CPython. *)
Definition isspace (c : N) : bool :=
  ((9 <=? c) && (c <=? 13)) || ((28 <=? c) && (c <=? 32))
  || (c =? 133) || (c =? 160) || (c =? 5760)
  || ((8192 <=? c) && (c <=? 8202))
  || (c =? 8232) || (c =? 8233) || (c =? 8239) || (c =? 8287) || (c =? 12288).

(** [s.lstrip(...)], [s.rstrip(...)] and [s.strip(...)] for the characters
    that satisfy [p]. *)
Fixpoint lstrip_by (p : N -> bool) (s : str) : str :=
  match s with
  | [] => []
  | c :: t => if p c then lstrip_by p t else s
  end.

Fixpoint rstrip_by (p : N -> bool) (s : str) : str :=
  match s with
  | [] => []
  | c :: t =>
      match rstrip_by p t with
      | [] => if p c then [] else [c]
      | t' => c :: t'
      end
  end.

Definition strip_by (p : N -> bool) (s : str) : str := rstrip_by p (lstrip_by p s).

Definition one_of (chars : str) (c : N) : bool := existsb (N.eqb c) chars.

(** [s.strip()] *)
Definition strip : str -> str := strip_by isspace.

Definition slash : N := 47.
Definition is_slash (c : N) : bool := c =? slash.

(** Lower case of an ASCII letter; under [re.I] a character matches one of
    the letters of "free download" exactly when its ASCII lower case is
    that letter (none of them has a non-ASCII case variant). *)
Definition lower (c : N) : N := if (65 <=? c) && (c <=? 90) then c + 32 else c.

(** A literal under [re.I] at the head of [s]: what follows it. *)
Fixpoint match_ci (pat s : str) : option str :=
  match pat, s with
  | [], _ => Some s
  | p :: pat', c :: s' => if lower c =? p then match_ci pat' s' else None
  | _ :: _, [] => None
  end.

Definition line_feed : N := 10.

(** [.*$] without [re.S] and [re.M]: the greedy [.*] runs to the next line
    feed or to the end, and [$] holds at the end and before a line feed
    that is the last character. The result is what the match leaves. *)
Fixpoint dot_star_end (s : str) : option str :=
  match s with
  | [] => Some []
  | c :: t =>
      if c =? line_feed
      then match t with [] => Some [line_feed] | _ :: _ => None end
      else dot_star_end t
  end.

(* ================================================================== *)
(** * Name normalizer: [clean_name] *)

(** One attempt of [\s*free\s+download.*$] (flags [re.I]) at the head of
    [s]: [Some rest] when it matches, [rest] being what follows the match. *)
Definition match_free_download (s : str) : option str :=
  match match_ci (lit "free") (lstrip_by isspace s) with
  | Some (w :: r) =>
      if isspace w
      then match match_ci (lit "download") (lstrip_by isspace r) with
           | Some r' => dot_star_end r'
           | None => None
           end
      else None
  | _ => None
  end.

(** [re.sub(r"\s*free\s+download.*$", "", s, flags=re.I)]: the leftmost
    match is cut out; what it leaves (nothing, or a final line feed) holds
    no further match. *)
Fixpoint sub_free_download (s : str) : str :=
  match match_free_download s with
  | Some rest => rest
  | None => match s with [] => [] | c :: t => c :: sub_free_download t end
  end.

Definition lparen : N := 40.
Definition rparen : N := 41.

(** [.*?\)\s*$]: the lazy [.*?] gives way to [\)\s*$] at the first place
    where a closing parenthesis is followed by white space only. *)
Fixpoint paren_close (s : str) : bool :=
  match s with
  | [] => false
  | c :: t =>
      ((c =? rparen) && forallb isspace t)
      || (negb (c =? line_feed) && paren_close t)
  end.

(** One attempt of [\s*\(.*?\)\s*$] at the head of [s]; a match runs to the
    end of [s]. *)
Definition match_paren_group (s : str) : bool :=
  match lstrip_by isspace s with
  | c :: body => (c =? lparen) && paren_close body
  | [] => false
  end.

(** [re.sub(r"\s*\(.*?\)\s*$", "", s)] *)
Fixpoint sub_paren_group (s : str) : str :=
  if match_paren_group s then []
  else match s with [] => [] | c :: t => c :: sub_paren_group t end.

(** [re.sub(r"\s+", " ", s)]; [in_run] says that the previous character was
    white space, already replaced. *)
Fixpoint collapse_from (in_run : bool) (s : str) : str :=
  match s with
  | [] => []
  | c :: t =>
      if isspace c
      then if in_run then collapse_from true t else 32 :: collapse_from true t
      else c :: collapse_from false t
  end.

Definition collapse_spaces : str -> str := collapse_from false.

(** The characters of [' -–+,:'] (the third is the en dash, U+2013). *)
Definition stray_punctuation : str := [32; 45; 8211; 43; 44; 58].

Definition ampersand : N := 38.

Section Normalizer.

(** [html.unescape] of Python's standard library is
    [[
      def unescape(s):
          if '&' not in s:
              return s
          return _charref.sub(_replace_charref, s)
    ]]
    The substitution of character references, with its table of HTML5
    entities, is the library's; it is taken as given. *)
Variable charref_sub : str -> str.

Definition unescape (s : str) : str :=
  if existsb (N.eqb ampersand) s then charref_sub s else s.

Definition clean_name (raw_text : str) : str :=
  match raw_text with
  | [] => []
  | _ :: _ =>
      let text := strip raw_text in
      let text := strip (sub_free_download text) in
      let text := strip (sub_paren_group text) in
      let text := strip_by (one_of stray_punctuation) (collapse_spaces text) in
      unescape text
  end.

End Normalizer.

(* ================================================================== *)
(** * Extractor: the body of the loop of [extract_games_from_html] *)

(** A game as the program passes it around: a dict with the keys ["Name"]
    and ["Url"]; a field is what [g.get(key)] returns. *)
Record candidate : Type := { Name : option str; Url : option str }.

Definition origin : str := lit "https://steamrip.com".

(** [s.split("/")[-1]] *)
Definition last_segment (s : str) : str :=
  fold_left (fun seg c => if is_slash c then [] else seg ++ [c]) s [].

(** One attempt of [-free-download$] (flags [re.I]) at the head of [s]. *)
Definition match_marker_end (s : str) : option str :=
  match match_ci (lit "-free-download") s with
  | Some [] => Some []
  | Some [c] => if c =? line_feed then Some [line_feed] else None
  | _ => None
  end.

(** [re.sub(r'-free-download$', '', s, flags=re.I)] *)
Fixpoint sub_marker_end (s : str) : str :=
  match match_marker_end s with
  | Some rest => rest
  | None => match s with [] => [] | c :: t => c :: sub_marker_end t end
  end.

(** [s.replace("-", " ")] *)
Definition dashes_to_spaces (s : str) : str :=
  map (fun c => if c =? 45 then 32 else c) s.

(** Lines 164-168: the link of a matched anchor, from [m.group(1).strip()]. *)
Definition rebase (raw_href : str) : str :=
  let href :=
    match raw_href with
    | c :: _ => if is_slash c then origin ++ lstrip_by is_slash raw_href else raw_href
    | [] => raw_href
    end in
  rstrip_by is_slash href.

Section Extractor.

Variable charref_sub : str -> str.

(** One turn of the loop over the matches of the anchor pattern: [m] holds
    [m.group(1)] and [m.group(2)]; the state is [seen] and [results]. *)
Definition extract_match (st : list str * list candidate) (m : str * str)
  : list str * list candidate :=
  let '(seen, results) := st in
  let raw_href := strip (fst m) in
  let raw_text := strip (snd m) in
  match raw_href with
  | [] => st
  | _ :: _ =>
      let href := rebase raw_href in
      let name := clean_name charref_sub raw_text in
      let name :=
        match name with
        | [] =>
            let slug := last_segment (rstrip_by is_slash href) in
            let slug_name := sub_marker_end slug in
            strip (dashes_to_spaces slug_name)
        | _ :: _ => name
        end in
      match name, href with
      | [], _ | _, [] => st
      | _ :: _, _ :: _ =>
          if existsb (str_eqb href) seen then st
          else (href :: seen, results ++ [{| Name := Some name; Url := Some href |}])
      end
  end.

(** [extract_games_from_html], given what [re.finditer] yields on the page:
    the two groups of each match of the anchor pattern, in document order. *)
Definition extract_games_from_html (matches : list (str * str)) : list candidate :=
  snd (fold_left extract_match matches ([], [])).

End Extractor.

(* ================================================================== *)
(** * Catalogue store *)

Record run_row : Type :=
  { run_id : nat; run_at : str; snapshot_count : nat }.

Record run_game_row : Type :=
  { rg_id : nat; rg_run_id : nat; rg_Name : option str; rg_Url : str; is_new : bool }.

Record game_row : Type :=
  { game_id : nat; g_Name : option str; g_Url : str; first_seen : str; last_seen : str }.

Record database : Type :=
  { runs : list run_row; run_games : list run_game_row; games : list game_row }.

(** What [init_db] leaves in a new file. *)
Definition empty_database : database :=
  {| runs := []; run_games := []; games := [] |}.

(** A [sqlite3.Connection]: [committed] is what the file holds, [view] is
    what the connection reads, the writes of its open transaction
    included. Closing the connection or losing the process drops [view]. *)
Record connection : Type := { committed : database; view : database }.

Definition new_connection : connection :=
  {| committed := empty_database; view := empty_database |}.

(** [conn.commit()] *)
Definition commit (conn : connection) : connection :=
  {| committed := view conn; view := view conn |}.

Definition on_view (f : database -> database) (conn : connection) : connection :=
  {| committed := committed conn; view := f (view conn) |}.

(** [INTEGER PRIMARY KEY AUTOINCREMENT]: one more than the largest id so
    far (no row is ever deleted). *)
Definition next_id (ids : list nat) : nat := S (list_max ids).

Definition has_url (url : str) (db : database) : bool :=
  existsb (fun r => str_eqb (g_Url r) url) (games db).

Definition get_games_count (conn : connection) : nat :=
  List.length (games (view conn)).

(** [INSERT INTO runs(run_at, snapshot_count) VALUES (?, ?)], with
    [cur.lastrowid]. *)
Definition insert_run (at_ : str) (count : nat) (conn : connection) : connection * nat :=
  let id := next_id (map run_id (runs (view conn))) in
  (on_view (fun db => {| runs := runs db ++ [{| run_id := id; run_at := at_; snapshot_count := count |}];
                       run_games := run_games db; games := games db |}) conn,
   id).

Definition create_run (conn : connection) (at_ : str) (count : nat) : connection * nat :=
  let '(conn, id) := insert_run at_ count conn in
  (commit conn, id).

Definition insert_run_game (conn : connection) (run : nat) (name : option str)
    (url : str) (new : bool) : connection :=
  on_view (fun db =>
    {| runs := runs db;
       run_games := run_games db ++
         [{| rg_id := next_id (map rg_id (run_games db)); rg_run_id := run;
             rg_Name := name; rg_Url := url; is_new := new |}];
       games := games db |}) conn.

Definition touch (url seen_at : str) (r : game_row) : game_row :=
  if str_eqb (g_Url r) url
  then {| game_id := game_id r; g_Name := g_Name r; g_Url := g_Url r;
          first_seen := first_seen r; last_seen := seen_at |}
  else r.

(** [UPDATE games SET last_seen = ? WHERE Url = ?] *)
Definition update_game_last_seen (conn : connection) (url seen_at : str) : connection :=
  on_view (fun db => {| runs := runs db; run_games := run_games db;
                      games := map (touch url seen_at) (games db) |}) conn.

(** [INSERT OR IGNORE INTO games(...)]: [Url] is [UNIQUE], so the row is
    dropped when one with this [Url] exists. *)
Definition insert_or_ignore_game (conn : connection) (name : option str)
    (url seen_at : str) : connection :=
  on_view (fun db =>
    if has_url url db then db
    else {| runs := runs db; run_games := run_games db;
            games := games db ++
              [{| game_id := next_id (map game_id (games db)); g_Name := name;
                  g_Url := url; first_seen := seen_at; last_seen := seen_at |}] |}) conn.

Definition insert_game (conn : connection) (name : option str) (url seen_at : str)
  : connection :=
  update_game_last_seen (insert_or_ignore_game conn name url seen_at) url seen_at.

(* ================================================================== *)
(** * Synchronizer: [run_persist] *)

(** [(g.get("Url") or "").rstrip("/")] *)
Definition candidate_url (g : candidate) : str :=
  rstrip_by is_slash (match Url g with Some u => u | None => [] end).

(** The body of the loop of [run_persist]; the state is the connection and
    [new_entries]. *)
Definition persist_candidate (run : nat) (now : str) (first_run : bool)
    (st : connection * list candidate) (g : candidate) : connection * list candidate :=
  let '(conn, new_entries) := st in
  let name := Name g in
  let url := candidate_url g in
  match url with
  | [] => st
  | _ :: _ =>
      if has_url url (view conn)
      then
        let conn := update_game_last_seen conn url now in
        let conn := insert_run_game conn run name url false in
        (conn, new_entries)
      else
        let conn := insert_game conn name url now in
        let is_new_flag := if first_run then false else true in
        let conn := insert_run_game conn run name url is_new_flag in
        if is_new_flag
        then (conn, new_entries ++ [{| Name := name; Url := Some url |}])
        else (conn, new_entries)
  end.

Definition run_persist (conn : connection) (now : str) (results : list candidate)
  : connection * (bool * list candidate) :=
  let pre_count := get_games_count conn in
  let '(conn, run) := create_run conn now (List.length results) in
  let first_run := Nat.eqb pre_count 0 in
  let '(conn, new_entries) :=
    fold_left (persist_candidate run now first_run) results (conn, []) in
  (commit conn, (first_run, new_entries)).

(** Runs one after the other, each with its time stamp and its batch. *)
Definition run_all (conn : connection) (batches : list (str * list candidate))
  : connection :=
  fold_left (fun c b => fst (run_persist c (fst b) (snd b))) batches conn.

(* ================================================================== *)
(** * The synchronizer over a store that can fail

    Every [cur.execute] and [conn.commit] is one call to the store. A
    [store] computation is given the number of calls the store still
    answers; the call after the last one raises [sqlite3.Error], which
    nothing in [run_persist] catches. *)

Inductive outcome (A : Type) : Type :=
| Returned (a : A) (calls : nat) (conn : connection)
| Raised (conn : connection).
Arguments Returned {A} a calls conn.
Arguments Raised {A} conn.

Definition store (A : Type) : Type := nat -> connection -> outcome A.

Definition ret {A : Type} (a : A) : store A := fun calls conn => Returned a calls conn.

Definition bind {A B : Type} (m : store A) (k : A -> store B) : store B :=
  fun calls conn =>
    match m calls conn with
    | Returned a calls' conn' => k a calls' conn'
    | Raised conn' => Raised conn'
    end.

Notation "x <- m ;; k" := (bind m (fun x => k))
  (at level 61, m at next level, right associativity).

(** One call to the store. *)
Definition call {A : Type} (f : connection -> connection * A) : store A :=
  fun calls conn =>
    match calls with
    | O => Raised conn
    | S calls' => let '(conn', a) := f conn in Returned a calls' conn'
    end.

Definition get_games_count_s : store nat :=
  call (fun conn => (conn, get_games_count conn)).

Definition create_run_s (at_ : str) (count : nat) : store nat :=
  id <- call (insert_run at_ count) ;;
  _ <- call (fun conn => (commit conn, tt)) ;;
  ret id.

Definition insert_run_game_s (run : nat) (name : option str) (url : str) (new : bool)
  : store unit :=
  call (fun conn => (insert_run_game conn run name url new, tt)).

Definition update_game_last_seen_s (url seen_at : str) : store unit :=
  call (fun conn => (update_game_last_seen conn url seen_at, tt)).

Definition insert_game_s (name : option str) (url seen_at : str) : store unit :=
  _ <- call (fun conn => (insert_or_ignore_game conn name url seen_at, tt)) ;;
  update_game_last_seen_s url seen_at.

Definition persist_candidate_s (run : nat) (now : str) (first_run : bool)
    (new_entries : list candidate) (g : candidate) : store (list candidate) :=
  let name := Name g in
  let url := candidate_url g in
  match url with
  | [] => ret new_entries
  | _ :: _ =>
      existing <- call (fun conn => (conn, has_url url (view conn))) ;;
      if (existing : bool)
      then
        _ <- update_game_last_seen_s url now ;;
        _ <- insert_run_game_s run name url false ;;
        ret new_entries
      else
        _ <- insert_game_s name url now ;;
        let is_new_flag := if first_run then false else true in
        _ <- insert_run_game_s run name url is_new_flag ;;
        ret (if is_new_flag
             then new_entries ++ [{| Name := name; Url := Some url |}]
             else new_entries)
  end.

Fixpoint persist_loop_s (run : nat) (now : str) (first_run : bool)
    (results new_entries : list candidate) : store (list candidate) :=
  match results with
  | [] => ret new_entries
  | g :: rest =>
      new_entries' <- persist_candidate_s run now first_run new_entries g ;;
      persist_loop_s run now first_run rest new_entries'
  end.

Definition run_persist_s (now : str) (results : list candidate)
  : store (bool * list candidate) :=
  pre_count <- get_games_count_s ;;
  run <- create_run_s now (List.length results) ;;
  let first_run := Nat.eqb pre_count 0 in
  new_entries <- persist_loop_s run now first_run results [] ;;
  _ <- call (fun conn => (commit conn, tt)) ;;
  ret (first_run, new_entries).

(** What the file holds once the process is gone: the uncommitted writes
    of the connection are lost. *)
Definition durable {A : Type} (o : outcome A) : database :=
  match o with
  | Returned _ _ conn => committed conn
  | Raised conn => committed conn
  end.

(** The associations of a run. *)
Definition associations (run : nat) (db : database) : list run_game_row :=
  filter (fun a => Nat.eqb (rg_run_id a) run) (run_games db).

(* ================================================================== *)
(** * Snapshot projector: the historical feed *)

(** A value [json.load] returns that is no list of games, as far as the
    code can tell such values apart: [null], a truth value or a number; a
    string; an object, of which iterating gives the keys; a list with an
    item that is not an object. *)
Inductive other_json : Type :=
| Scalar
| Text (s : str)
| Object (keys : list str)
| Odd_list.

(** The path of the feed file as [load_json_games] meets it: nothing there
    ([os.path.exists] is false); something there that [open] refuses (a
    directory, a file without read permission); a file with content on
    which [json.load] raises (not UTF-8, not JSON); a file holding a list
    of games; a file holding other JSON. *)
Inductive feed_file : Type :=
| Absent
| Unopenable
| Corrupt
| Holds (feed : list candidate)
| Other (value : other_json).

(** What [json.load] returned. *)
Inductive loaded : Type :=
| Games (feed : list candidate)
| Value (v : other_json).

(** [load_json_games]; [None] when it raises: [open] stands outside the
    [try], and what [json.load] returns is returned as it is. *)
Definition load_json_games (file : feed_file) : option loaded :=
  match file with
  | Absent => Some (Games [])
  | Unopenable => None
  | Corrupt => Some (Games [])
  | Holds feed => Some (Games feed)
  | Other value => Some (Value value)
  end.

(** [{g["Url"] for g in existing_new}] over a list of games; [None] is the
    [KeyError] of a game without the key. *)
Fixpoint url_set (l : list candidate) : option (list str) :=
  match l with
  | [] => Some []
  | g :: t =>
      match Url g with
      | Some u => option_map (cons u) (url_set t)
      | None => None
      end
  end.

(** [{g["Url"] for g in existing_new}] over what was loaded; [None] is
    the [TypeError] of a value that cannot be iterated, or of [g["Url"]]
    on a [g] that is a character, a key or another item that is not an
    object. *)
Definition existing_urls_of (existing_new : loaded) : option (list str) :=
  match existing_new with
  | Games feed => url_set feed
  | Value Scalar => None
  | Value (Text []) => Some []
  | Value (Text (_ :: _)) => None
  | Value (Object []) => Some []
  | Value (Object (_ :: _)) => None
  | Value Odd_list => None
  end.

(** [[g for g in new_entries if g["Url"] not in existing_urls]] *)
Fixpoint not_in (existing_urls : list str) (new_entries : list candidate)
  : option (list candidate) :=
  match new_entries with
  | [] => Some []
  | g :: t =>
      match Url g with
      | Some u =>
          option_map (fun rest => if existsb (str_eqb u) existing_urls then rest else g :: rest)
                     (not_in existing_urls t)
      | None => None
      end
  end.

(** [truly_new + existing_new]; [None] is the [TypeError] of a list added
    to a string or to a dict. An odd list does not come this far. *)
Definition combined (truly_new : list candidate) (existing_new : loaded)
  : option (list candidate) :=
  match existing_new with
  | Games feed => Some (truly_new ++ feed)
  | Value _ => None
  end.

(** [save_new_games_file]: the file it leaves, or [None] when it raises. *)
Definition save_new_games_file (new_entries : list candidate) (file : feed_file)
  : option feed_file :=
  match new_entries with
  | [] => Some file
  | _ :: _ =>
      match load_json_games file with
      | None => None
      | Some existing_new =>
          match existing_urls_of existing_new with
          | None => None
          | Some existing_urls =>
              match not_in existing_urls new_entries with
              | None => None
              | Some [] => Some file
              | Some ((_ :: _) as truly_new) =>
                  option_map Holds (combined truly_new existing_new)
              end
          end
      end
  end.

(* ================================================================== *)
(** * Snapshot projector: the full catalogue *)

From Stdlib Require Import Sorted.

(** [a < b] on [str]: by code points, a proper prefix first. *)
Fixpoint str_ltb (a b : str) : bool :=
  match a, b with
  | _, [] => false
  | [], _ :: _ => true
  | x :: a', y :: b' => (x <? y) || ((x =? y) && str_ltb a' b')
  end.

(** [sorted(l, key=key)]. Python's sort is stable and compares the keys
    with [<] only; a list has one stable sorted arrangement, which this
    insertion from the right computes: an element goes before the first
    one whose key is not less than its own. *)
Fixpoint insert_sorted {A : Type} (key : A -> str) (x : A) (l : list A) : list A :=
  match l with
  | [] => [x]
  | y :: l' => if str_ltb (key y) (key x) then y :: insert_sorted key x l' else x :: l
  end.

Definition sorted {A : Type} (key : A -> str) (l : list A) : list A :=
  fold_right (insert_sorted key) [] l.

Section Snapshot.

(** [str.lower] of Python, the Unicode lower-casing of the library; it is
    taken as given. *)
Variable str_lower : str -> str.

(** [lambda g: (g["Name"] or "").lower()] *)
Definition name_key (g : candidate) : str :=
  str_lower (match Name g with Some n => n | None => [] end).

(** [save_all_games_from_db]: the list it dumps to the file. The rows come
    in the order of the table. *)
Definition save_all_games_from_db (conn : connection) : list candidate :=
  let rows := games (view conn) in
  let games := map (fun r => {| Name := g_Name r; Url := Some (g_Url r) |}) rows in
  sorted name_key games.

(** The two files: [All.Games.json], there or not, and [New.Games.json]. *)
Record artifacts : Type :=
  { all_games_json : option (list candidate); new_games_json : feed_file }.

(** [main] from "Persist results" on (lines 521-546), given what [scrape]
    returned and the connection [connect_db] opened: the connection and the
    files it leaves, and whether it ran to "Run completed" ([false] when
    an exception reached the handler that ends in [sys.exit(1)]). *)
Definition main (results : list candidate) (now : str) (conn : connection)
    (files : artifacts) : connection * artifacts * bool :=
  match results with
  | [] =>
      let '(conn, _) := create_run conn now 0 in
      (commit conn, files, true)
  | _ :: _ =>
      let '(conn, (first_run, new_entries)) := run_persist conn now results in
      if first_run
      then (conn, {| all_games_json := Some (save_all_games_from_db conn);
                     new_games_json := new_games_json files |}, true)
      else
        match new_entries with
        | [] => (conn, files, true)
        | _ :: _ =>
            let written := Some (save_all_games_from_db conn) in
            match save_new_games_file new_entries (new_games_json files) with
            | Some feed =>
                (conn, {| all_games_json := written; new_games_json := feed |}, true)
            | None =>
                (conn, {| all_games_json := written;
                          new_games_json := new_games_json files |}, false)
            end
        end
  end.

(** Runs of the program one after the other, each with what [scrape]
    returned and its time stamp; the last component says that every run
    completed. *)
Definition main_runs (runs_ : list (list candidate * str)) (conn : connection)
    (files : artifacts) : connection * artifacts * bool :=
  fold_left (fun w r => let '(c, f, ok) := w in
                        let '(c', f', ok') := main (fst r) (snd r) c f in
                        (c', f', ok && ok'))
            runs_ (conn, files, true).

End Snapshot.

(* ================================================================== *)
(** * Scraper: the loop of [scrape] over the anchors of the driver *)

(** An anchor as [scrape] reads it: [a.get_attribute("href")],
    [a.get_attribute("data-href")], [a.text] and
    [a.get_attribute("innerText")]. *)
Record anchor : Type :=
  { attr_href : option str; attr_data_href : option str;
    a_text : str; attr_innerText : option str }.

(** [a or b] for an optional string [a]: [None] and [""] give [b]. *)
Definition or_else (a : option str) (b : str) : str :=
  match a with
  | Some (c :: t) => c :: t
  | _ => b
  end.

Section Scraper.

Variable charref_sub : str -> str.

(** One turn of the loop of [scrape]; the state is [seen] and [results]. *)
Definition scrape_anchor (st : list str * list candidate) (a : anchor)
  : list str * list candidate :=
  let '(seen, results) := st in
  let href := or_else (attr_href a) (or_else (attr_data_href a) []) in
  let href := rebase href in
  let text := or_else (Some (a_text a)) (or_else (attr_innerText a) []) in
  let name := clean_name charref_sub text in
  let name :=
    match name with
    | [] =>
        let slug := or_else (attr_href a) (or_else (attr_data_href a) []) in
        match slug with
        | [] => name
        | _ :: _ =>
            let slug := last_segment (rstrip_by is_slash slug) in
            let name := sub_marker_end slug in
            strip (dashes_to_spaces name)
        end
    | _ :: _ => name
    end in
  match name, href with
  | [], _ | _, [] => st
  | _ :: _, _ :: _ =>
      if existsb (str_eqb href) seen then st
      else (href :: seen, results ++ [{| Name := Some (strip name); Url := Some href |}])
  end.

(** [scrape], given the anchors [find_elements] returns. *)
Definition scrape (anchors : list anchor) : list candidate :=
  snd (fold_left scrape_anchor anchors ([], [])).

End Scraper.

(* ================================================================== *)
(** * Vocabulary of the properties, and instances *)

(** The [Url] column of the [games] table. *)
Definition urls (db : database) : list str := map g_Url (games db).

(** A link as the catalogue keeps it: not empty, no trailing slash. *)
Definition normalized (u : str) : Prop := u <> [] /\ rstrip_by is_slash u = u.

(** The row [INSERT OR IGNORE] adds for a link that is not in the table. *)
Definition new_game (db : database) (name : option str) (url now : str) : game_row :=
  {| game_id := next_id (map game_id (games db)); g_Name := name; g_Url := url;
     first_seen := now; last_seen := now |}.

(** The association a candidate leaves. *)
Definition association (db : database) (run : nat) (name : option str) (url : str)
    (new : bool) : run_game_row :=
  {| rg_id := next_id (map rg_id (run_games db)); rg_run_id := run;
     rg_Name := name; rg_Url := url; is_new := new |}.

(** A row seen again at [now]. *)
Definition seen_again (now : str) (r : game_row) : game_row :=
  {| game_id := game_id r; g_Name := g_Name r; g_Url := g_Url r;
     first_seen := first_seen r; last_seen := now |}.

(** The loop of [run_persist]. *)
Definition persist_loop (run : nat) (now : str) (first_run : bool) :=
  fold_left (persist_candidate run now first_run).

(** A candidate adds a row exactly when it has a link that is not in the
    table yet. *)
Definition adds_row (db : database) (g : candidate) : bool :=
  match candidate_url g with
  | [] => false
  | _ :: _ => negb (has_url (candidate_url g) db)
  end.

(** The links a batch brings: those of its candidates, trimmed, that are
    not empty. *)
Definition observed (results : list candidate) (u : str) : Prop :=
  u <> [] /\ exists g, In g results /\ candidate_url g = u.

(** The links some batch of a sequence of runs brings. *)
Definition observed_in (batches : list (str * list candidate)) (u : str) : Prop :=
  exists b, In b batches /\ observed (snd b) u.

Definition has_link (g : candidate) : bool :=
  match candidate_url g with [] => false | _ :: _ => true end.

(** What an association records, its row id apart. *)
Definition recorded (a : run_game_row) : nat * option str * str * bool :=
  (rg_run_id a, rg_Name a, rg_Url a, is_new a).

(** Every new entry has a link, which is in the catalogue, and no two have
    the same link. *)
Definition new_entries_ok (st : connection * list candidate) : Prop :=
  NoDup (map Url (snd st))
  /\ forall e, In e (snd st) -> exists u, Url e = Some u /\ In u (urls (view (fst st))).

(** The connection an outcome leaves. *)
Definition conn_of {A : Type} (o : outcome A) : connection :=
  match o with
  | Returned _ _ conn => conn
  | Raised conn => conn
  end.

(** All or nothing: a run that raises leaves the file as it found it. *)
Definition rolled_back {A : Type} (before : connection) (o : outcome A) : Prop :=
  match o with
  | Raised conn => committed conn = committed before
  | Returned _ _ _ => True
  end.

Ltac store_step :=
  unfold persist_candidate_s, insert_game_s, insert_run_game_s,
    update_game_last_seen_s, bind, call, ret.

(** The link of [g] is the link of an entry of [feed]. *)
Definition in_feed (feed : list candidate) (g : candidate) : bool :=
  existsb (fun e => match Url e, Url g with
                    | Some a, Some b => str_eqb a b
                    | _, _ => false
                    end) feed.

(** The entries of [new_entries], in order, whose link is not in [feed]. *)
Definition truly_new (feed new_entries : list candidate) : list candidate :=
  filter (fun g => negb (in_feed feed g)) new_entries.

Definition keyed (l : list candidate) : Prop := forall g, In g l -> Url g <> None.

(** The feed file was read as the empty feed and the merge went on: no
    error left [save_new_games_file]. *)
Definition recovered (new_entries : list candidate) (file : feed_file) : Prop :=
  load_json_games file = Some (Games [])
  /\ exists file', save_new_games_file new_entries file = Some file'.

Definition game (name url : string) : candidate :=
  {| Name := Some (lit name); Url := Some (lit url) |}.

Definition apple : candidate := game "Apple" "u/a".
Definition beta : candidate := game "Beta" "u/b".
Definition gamma : candidate := game "Gamma" "u/g".

(** A catalogue with the rows of [apple] and [beta], after a first run. *)
Definition catalog_ab : connection :=
  fst (run_persist new_connection (lit "t1") [apple; beta]).

(** The run over [apple] on a new file, the store failing at its fourth
    call (the [SELECT] of the first candidate). *)
Definition failed_run : outcome (bool * list candidate) :=
  run_persist_s (lit "t1") [apple] 3%nat new_connection.

Definition starts_solid (s : str) : Prop :=
  match s with [] => True | d :: _ => isspace d = false end.

(** White space only as single spaces (U+0020). *)
Fixpoint spaced (s : str) : Prop :=
  match s with
  | [] => True
  | c :: t => (isspace c = true -> c = 32 /\ starts_solid t) /\ spaced t
  end.

(** The text [clean_name] passes to [html.unescape]. *)
Definition clean_text (raw_text : str) : str :=
  strip_by (one_of stray_punctuation)
    (collapse_spaces (strip (sub_paren_group (strip (sub_free_download (strip raw_text)))))).

Definition is_some {A : Type} (o : option A) : bool :=
  match o with Some _ => true | None => false end.

(** [free\s+download] (flags [re.I]) at the head of [s]. *)
Definition fd_core (s : str) : bool :=
  match match_ci (lit "free") s with
  | Some (w :: r) => isspace w && is_some (match_ci (lit "download") (lstrip_by isspace r))
  | _ => false
  end.

(** [\s*free\s+download] (flags [re.I]) at the head of [s]. *)
Definition fd_head (s : str) : bool := fd_core (lstrip_by isspace s).

(** No place of [s] where [\s*free\s+download] matches. *)
Fixpoint nofd (s : str) : Prop :=
  fd_head s = false /\ match s with [] => True | _ :: t => nofd t end.

Definition letters (pat : str) : Prop := Forall (fun q => 97 <= q <= 122) pat.

(** [s] ends in a closing parenthesis followed by white space only. *)
Definition ends_paren (s : str) : Prop :=
  exists a w, s = a ++ rparen :: w /\ forallb isspace w = true.

(** Printable ASCII: U+0020 to U+007E. *)
Definition printable_ascii (x : str) : Prop := Forall (fun c => 32 <= c <= 126) x.

(** ** Vocabulary of the further properties *)

(** The candidates of a batch that have a link, in order, each with
    whether it is the first to bring a link that is not in [known]. *)
Fixpoint classify (known : list str) (results : list candidate)
  : list (candidate * bool) :=
  match results with
  | [] => []
  | g :: t =>
      match candidate_url g with
      | [] => classify known t
      | _ :: _ =>
          if existsb (str_eqb (candidate_url g)) known
          then (g, false) :: classify known t
          else (g, true) :: classify (known ++ [candidate_url g]) t
      end
  end.

(** The candidates that bring, first in the batch, a link not in [known]. *)
Definition fresh (known : list str) (results : list candidate) : list candidate :=
  map fst (filter snd (classify known results)).

(** The links a batch brings, in order, repeated as they come. *)
Definition links (results : list candidate) : list str :=
  map candidate_url (filter has_link results).

(** A candidate as [run_persist] reports it: its name and trimmed link. *)
Definition entry_of (g : candidate) : candidate :=
  {| Name := Name g; Url := Some (candidate_url g) |}.

(** The rows of candidates added at time [now], numbered from [last_id]. *)
Fixpoint new_rows (last_id : nat) (now : str) (l : list candidate) : list game_row :=
  match l with
  | [] => []
  | g :: t =>
      {| game_id := S last_id; g_Name := Name g; g_Url := candidate_url g;
         first_seen := now; last_seen := now |} :: new_rows (S last_id) now t
  end.

(** A row after a run at [now] that met the links [seen_links]. *)
Definition refresh (now : str) (seen_links : list str) (r : game_row) : game_row :=
  if existsb (str_eqb (g_Url r)) seen_links then seen_again now r else r.

(** The associations of classified candidates, numbered from [last_id]. *)
Fixpoint new_associations (last_id run : nat) (first_run : bool)
    (l : list (candidate * bool)) : list run_game_row :=
  match l with
  | [] => []
  | (g, first_met) :: t =>
      {| rg_id := S last_id; rg_run_id := run; rg_Name := Name g;
         rg_Url := candidate_url g; is_new := first_met && negb first_run |}
      :: new_associations (S last_id) run first_run t
  end.

Definition is_empty {A : Type} (l : list A) : bool :=
  match l with [] => true | _ :: _ => false end.

(** Every association names a run of [runs] and a link of [games]. *)
Definition referenced (db : database) : Prop :=
  forall a, In a (run_games db) ->
    In (rg_run_id a) (map run_id (runs db)) /\ In (rg_Url a) (urls db).

(** A record with a name that is not empty and a link as the catalogue
    keeps it. *)
Definition well_formed (g : candidate) : Prop :=
  (exists n, Name g = Some n /\ n <> [])
  /\ exists u, Url g = Some u /\ normalized u.

(** A record with some name and a link as the catalogue keeps it. *)
Definition linked (g : candidate) : Prop :=
  (exists n, Name g = Some n) /\ exists u, Url g = Some u /\ normalized u.

(** The games of a table as [save_all_games_from_db] reads them. *)
Definition listed (db : database) : list candidate :=
  map (fun r => {| Name := g_Name r; Url := Some (g_Url r) |}) (games db).

(** No file and no row yet, or the file holds the sorted table. *)
Definition in_sync (str_lower : str -> str) (conn : connection) (files : artifacts)
  : Prop :=
  (all_games_json files = None /\ games (view conn) = [])
  \/ all_games_json files = Some (save_all_games_from_db str_lower conn).

(** The feed file is not there or holds games with a link each, no link
    twice, every link a link of the catalogue. *)
Definition feed_ok (conn : connection) (files : artifacts) : Prop :=
  new_games_json files <> Corrupt
  /\ exists feed,
       load_json_games (new_games_json files) = Some (Games feed)
       /\ keyed feed
       /\ NoDup (map Url feed)
       /\ forall g, In g feed -> exists u, Url g = Some u /\ In u (urls (view conn)).

Definition no_files : artifacts :=
  {| all_games_json := None; new_games_json := Absent |}.

(** One turn of a loop that drops what it has seen: [c] is the name and
    the link found, if any. *)
Definition dedup_step (st : list str * list candidate) (c : option (str * str))
  : list str * list candidate :=
  match c with
  | None => st
  | Some (name, href) =>
      if existsb (str_eqb href) (fst st) then st
      else (href :: fst st, snd st ++ [{| Name := Some name; Url := Some href |}])
  end.

(** The name and the link [extract_games_from_html] finds in a match. *)
Definition found_in_match (charref_sub : str -> str) (m : str * str)
  : option (str * str) :=
  match strip (fst m) with
  | [] => None
  | _ :: _ =>
      let href := rebase (strip (fst m)) in
      let name :=
        match clean_name charref_sub (strip (snd m)) with
        | [] => strip (dashes_to_spaces (sub_marker_end
                         (last_segment (rstrip_by is_slash href))))
        | _ :: _ => clean_name charref_sub (strip (snd m))
        end in
      match name, href with
      | [], _ | _, [] => None
      | _ :: _, _ :: _ => Some (name, href)
      end
  end.

(** The name and the link [scrape] finds in an anchor. *)
Definition found_in_anchor (charref_sub : str -> str) (a : anchor)
  : option (str * str) :=
  let raw := or_else (attr_href a) (or_else (attr_data_href a) []) in
  let href := rebase raw in
  let text := or_else (Some (a_text a)) (or_else (attr_innerText a) []) in
  let name :=
    match clean_name charref_sub text with
    | [] =>
        match raw with
        | [] => []
        | _ :: _ => strip (dashes_to_spaces (sub_marker_end
                             (last_segment (rstrip_by is_slash raw))))
        end
    | _ :: _ => clean_name charref_sub text
    end in
  match name, href with
  | [], _ | _, [] => None
  | _ :: _, _ :: _ => Some (strip name, href)
  end.

(** Every name and link found satisfies [P]. *)
Definition all_found (P : str -> str -> Prop) (l : list (option (str * str))) : Prop :=
  Forall (fun c => match c with Some (n, h) => P n h | None => True end) l.

(** A record made of a name and a link that satisfy [P]. *)
Definition made (P : str -> str -> Prop) (g : candidate) : Prop :=
  exists n h, Name g = Some n /\ Url g = Some h /\ P n h.

(** [seen] holds the links of [results], which are distinct. *)
Definition seen_ok (P : str -> str -> Prop) (st : list str * list candidate) : Prop :=
  (forall h, In h (fst st) <-> In (Some h) (map Url (snd st)))
  /\ NoDup (map Url (snd st))
  /\ Forall (made P) (snd st).

(** Three anchors: a link with a trailing slash, an anchor without text
    whose link is in [data-href], and the first link again. *)
Definition sample_anchors : list anchor :=
  [{| attr_href := Some (lit "https://steamrip.com/gamma-free-download/");
      attr_data_href := None; a_text := lit "Gamma Free Download";
      attr_innerText := None |};
   {| attr_href := None; attr_data_href := Some (lit "/delta-free-download");
      a_text := []; attr_innerText := Some (lit " ") |};
   {| attr_href := Some (lit "https://steamrip.com/gamma-free-download");
      attr_data_href := None; a_text := lit "Gamma again"; attr_innerText := None |}].

(** [a] may stand before [b] in a list sorted by [key]: the key of [b] is
    not less than the key of [a]. *)
Definition key_le {A : Type} (key : A -> str) (a b : A) : Prop :=
  str_ltb (key b) (key a) = false.

(* ================================================================== *)
(** * Properties: strings *)

Lemma str_eqb_true (a b : str) : str_eqb a b = true <-> a = b.
Proof.
  unfold str_eqb. destruct (list_eq_dec N.eq_dec a b); split; congruence.
Qed.

Lemma str_eqb_refl (a : str) : str_eqb a a = true.
Proof. now apply str_eqb_true. Qed.

Lemma str_eqb_false (a b : str) : str_eqb a b = false <-> a <> b.
Proof.
  unfold str_eqb. destruct (list_eq_dec N.eq_dec a b); split; congruence.
Qed.

(* ================================================================== *)
(** * Properties: stripping *)

Section Strip.

Variable p : N -> bool.

Lemma lstrip_by_suffix (s : str) :
  exists a, s = a ++ lstrip_by p s /\ forallb p a = true.
Proof.
  induction s as [|c t [a [E F]]]; [now exists []|].
  cbn [lstrip_by]. destruct (p c) eqn:Hc.
  - exists (c :: a). split; [cbn; now f_equal|]. cbn. now rewrite Hc.
  - now exists [].
Qed.

Lemma lstrip_by_head (s : str) (c : N) (t : str) :
  lstrip_by p s = c :: t -> p c = false.
Proof.
  induction s as [|d s IH]; [discriminate|].
  cbn [lstrip_by]. destruct (p d) eqn:Hd; [exact IH|].
  intros H. now injection H as <- _.
Qed.

Lemma lstrip_by_fixed (c : N) (t : str) :
  p c = false -> lstrip_by p (c :: t) = c :: t.
Proof. intros H. cbn. now rewrite H. Qed.

Lemma lstrip_by_idem (s : str) : lstrip_by p (lstrip_by p s) = lstrip_by p s.
Proof.
  destruct (lstrip_by p s) as [|c t] eqn:E; [reflexivity|].
  apply lstrip_by_fixed. now apply (lstrip_by_head s c t).
Qed.

Lemma rstrip_by_prefix (s : str) :
  exists w, s = rstrip_by p s ++ w /\ forallb p w = true.
Proof.
  induction s as [|c t [w [E F]]]; [now exists []|].
  cbn [rstrip_by]. destruct (rstrip_by p t) as [|d t'] eqn:R.
  - destruct (p c) eqn:Hc.
    + exists (c :: w). cbn in E. subst t. split; [reflexivity|]. cbn. now rewrite Hc.
    + exists w. cbn in E |- *. now subst t.
  - exists w. split; [|assumption]. cbn. now f_equal.
Qed.

Lemma rstrip_by_app (a w : str) (c : N) :
  p c = false -> forallb p w = true -> rstrip_by p (a ++ c :: w) = a ++ [c].
Proof.
  intros Hc Hw.
  assert (W : rstrip_by p w = []).
  { induction w as [|d w IH]; [reflexivity|]. cbn in Hw. apply andb_prop in Hw.
    cbn. rewrite IH by tauto. now destruct Hw as [-> _]. }
  assert (C : rstrip_by p (c :: w) = [c]) by (cbn; now rewrite W, Hc).
  induction a as [|d a IH]; [exact C|].
  cbn [app rstrip_by]. rewrite IH. now destruct a.
Qed.

Lemma rstrip_by_all (w : str) : forallb p w = true -> rstrip_by p w = [].
Proof.
  induction w as [|d w IH]; [reflexivity|]. cbn. intros H. apply andb_prop in H.
  rewrite IH by tauto. now destruct H as [-> _].
Qed.

(** A string is all [p], or ends, before a run of [p], in a character
    that is not [p]. *)
Lemma rstrip_by_cases (s : str) :
  (forallb p s = true /\ rstrip_by p s = [])
  \/ exists a c w, s = a ++ c :: w /\ p c = false /\ forallb p w = true
                   /\ rstrip_by p s = a ++ [c].
Proof.
  induction s as [|d t [[F R]|[a [c [w [E [Hc [Hw R]]]]]]]].
  - now left.
  - cbn [rstrip_by forallb]. rewrite R, F. destruct (p d) eqn:Hd.
    + now left.
    + right. now exists [], d, t.
  - right. exists (d :: a), c, w. cbn [rstrip_by]. rewrite R. subst t.
    repeat split; try assumption. now destruct a.
Qed.

Lemma rstrip_by_idem (s : str) : rstrip_by p (rstrip_by p s) = rstrip_by p s.
Proof.
  destruct (rstrip_by_cases s) as [[_ R]|[a [c [w [_ [Hc [_ R]]]]]]]; rewrite R.
  - reflexivity.
  - now apply (rstrip_by_app a [] c).
Qed.

Lemma rstrip_by_fixed (a : str) (c : N) :
  p c = false -> rstrip_by p (a ++ [c]) = a ++ [c].
Proof. intros H. now apply (rstrip_by_app a [] c). Qed.

(** [strip_by p s] is empty, or begins and ends in characters that are
    not [p]; it is a piece of [s]. *)
Lemma strip_by_cases (s : str) :
  strip_by p s = []
  \/ exists c m d, (strip_by p s = [c] \/ strip_by p s = c :: m ++ [d])
                   /\ p c = false /\ p d = false.
Proof.
  unfold strip_by.
  destruct (rstrip_by_cases (lstrip_by p s)) as [[_ R]|[a [c [w [E [Hc [_ R]]]]]]].
  - now left.
  - right. rewrite R. destruct a as [|e a].
    + exists c, [], c. now repeat split; try left.
    + exists e, a, c. repeat split; [now right | | assumption].
      apply (lstrip_by_head s e (a ++ c :: w)). exact E.
Qed.

Lemma strip_by_piece (s : str) :
  exists a w, s = a ++ strip_by p s ++ w.
Proof.
  destruct (lstrip_by_suffix s) as [a [E _]].
  destruct (rstrip_by_prefix (lstrip_by p s)) as [w [E' _]].
  exists a, w. unfold strip_by. now rewrite <- E'.
Qed.

Lemma strip_by_In (s : str) (c : N) : In c (strip_by p s) -> In c s.
Proof.
  destruct (strip_by_piece s) as [a [w E]]. intros H. rewrite E.
  apply in_or_app. right. apply in_or_app. now left.
Qed.

End Strip.

(** What [q] strips, [p] strips: then stripping [q] after [p] does nothing. *)
Lemma strip_by_absorbs (p q : N -> bool) (s : str) :
  (forall c, In c s -> q c = true -> p c = true) ->
  strip_by q (strip_by p s) = strip_by p s.
Proof.
  intros H.
  assert (Hq : forall c, In c (strip_by p s) -> p c = false -> q c = false).
  { intros c Hin Hc. destruct (q c) eqn:Hqc; [|reflexivity].
    rewrite (H c (strip_by_In p s c Hin) Hqc) in Hc. discriminate. }
  destruct (strip_by_cases p s) as [E|[c [m [d [[E|E] [Hc Hd]]]]]]; rewrite E in *.
  - reflexivity.
  - unfold strip_by. cbn. rewrite (Hq c) by (now left || assumption). cbn.
    now rewrite (Hq c) by (now left || assumption).
  - assert (Qc : q c = false) by (apply Hq; [now left | assumption]).
    assert (Qd : q d = false).
    { apply Hq; [|assumption]. right. apply in_or_app. right. now left. }
    unfold strip_by. cbn [lstrip_by]. rewrite Qc.
    change (c :: m ++ [d]) with ((c :: m) ++ [d]).
    apply (rstrip_by_app q (c :: m) [] d Qd eq_refl).
Qed.

Lemma strip_by_idem (p : N -> bool) (s : str) :
  strip_by p (strip_by p s) = strip_by p s.
Proof. apply strip_by_absorbs. intros c _ H. exact H. Qed.

(* ================================================================== *)
(** * Properties: collapsed white space *)

Lemma collapse_in_run_solid (s : str) : starts_solid (collapse_from true s).
Proof.
  induction s as [|c t IH]; [exact I|]. cbn [collapse_from].
  destruct (isspace c) eqn:Hc; [exact IH | exact Hc].
Qed.

Lemma collapse_from_spaced (b : bool) (s : str) : spaced (collapse_from b s).
Proof.
  revert b. induction s as [|c t IH]; intros b; [exact I|]. cbn [collapse_from].
  destruct (isspace c) eqn:Hc.
  - destruct b; [apply IH|]. split; [|apply IH].
    intros _. split; [reflexivity | apply collapse_in_run_solid].
  - split; [|apply IH]. intros H. congruence.
Qed.

Lemma spaced_collapse (s : str) :
  spaced s ->
  collapse_from false s = s /\ (starts_solid s -> collapse_from true s = s).
Proof.
  induction s as [|c t IH]; [now split|]. intros [Hc Ht].
  destruct (IH Ht) as [F T]. cbn [collapse_from]. destruct (isspace c) eqn:Ec.
  - destruct (Hc eq_refl) as [-> St]. split; [now rewrite (T St)|].
    intros S. cbn in S. congruence.
  - rewrite F. now split.
Qed.

Lemma spaced_app (a b : str) : spaced (a ++ b) -> spaced a /\ spaced b.
Proof.
  induction a as [|c a IH]; [now split|]. cbn [app spaced]. intros [Hc H].
  destruct (IH H) as [Sa Sb]. split; [|exact Sb]. split; [|exact Sa].
  intros E. destruct (Hc E) as [-> S]. split; [reflexivity|]. now destruct a.
Qed.

Lemma spaced_strip_by (p : N -> bool) (s : str) : spaced s -> spaced (strip_by p s).
Proof.
  intros H. destruct (strip_by_piece p s) as [a [w E]]. rewrite E in H.
  apply spaced_app in H. destruct H as [_ H]. apply spaced_app in H. tauto.
Qed.

Lemma spaced_In (s : str) (c : N) : spaced s -> In c s -> isspace c = true -> c = 32.
Proof.
  induction s as [|d t IH]; [intros _ []|]. intros [Hd Ht] [->|Hin] E.
  - now destruct (Hd E).
  - now apply IH.
Qed.

Lemma clean_name_text (charref_sub : str -> str) (raw_text : str) :
  clean_name charref_sub raw_text
  = match raw_text with
    | [] => []
    | _ :: _ => unescape charref_sub (clean_text raw_text)
    end.
Proof. reflexivity. Qed.

(** The text is tidy: the three strippings and the collapsing of white
    space leave it as it is. *)
Lemma clean_text_tidy (x : str) :
  strip (clean_text x) = clean_text x
  /\ collapse_spaces (clean_text x) = clean_text x
  /\ strip_by (one_of stray_punctuation) (clean_text x) = clean_text x.
Proof.
  unfold clean_text.
  set (c := collapse_spaces _).
  assert (Sc : spaced c) by apply collapse_from_spaced.
  split; [|split].
  - apply strip_by_absorbs. intros d Hd Hs.
    now rewrite (spaced_In c d Sc Hd Hs).
  - apply spaced_collapse. now apply spaced_strip_by.
  - apply strip_by_idem.
Qed.

(* ================================================================== *)
(** * Properties: which characters the normalizer keeps *)

Section Kept.

(** A property of characters that the space has. *)
Variable P : N -> Prop.
Hypothesis P_space : P 32.

Lemma kept_lstrip_by (p : N -> bool) (s : str) : Forall P s -> Forall P (lstrip_by p s).
Proof.
  intros H. destruct (lstrip_by_suffix p s) as [a [E _]]. rewrite E in H.
  now apply Forall_app in H.
Qed.

Lemma kept_strip_by (p : N -> bool) (s : str) : Forall P s -> Forall P (strip_by p s).
Proof.
  intros H. apply Forall_forall. intros c Hc.
  apply (proj1 (Forall_forall P s) H). now apply (strip_by_In p).
Qed.

Lemma kept_match_ci (pat s r : str) : match_ci pat s = Some r -> Forall P s -> Forall P r.
Proof.
  revert s. induction pat as [|q pat IH]; intros s.
  - cbn. intros E. now injection E as <-.
  - destruct s as [|c s]; [discriminate|]. cbn.
    destruct (lower c =? q); [|discriminate]. intros E H. inversion H. eauto.
Qed.

Lemma kept_dot_star_end (s r : str) : dot_star_end s = Some r -> Forall P s -> Forall P r.
Proof.
  induction s as [|c t IH]; cbn.
  - intros E. now injection E as <-.
  - destruct (c =? line_feed) eqn:Ec.
    + destruct t; [|discriminate]. intros E. injection E as <-.
      apply N.eqb_eq in Ec. now subst c.
    + intros E H. inversion H. eauto.
Qed.

Lemma kept_match_free_download (s r : str) :
  match_free_download s = Some r -> Forall P s -> Forall P r.
Proof.
  unfold match_free_download. intros E H.
  destruct (match_ci (lit "free") (lstrip_by isspace s)) as [[|w r1]|] eqn:E1;
    try discriminate.
  destruct (isspace w); [|discriminate].
  destruct (match_ci (lit "download") (lstrip_by isspace r1)) as [r2|] eqn:E2;
    [|discriminate].
  apply (kept_dot_star_end _ _ E). apply (kept_match_ci _ _ _ E2).
  apply kept_lstrip_by.
  apply (kept_lstrip_by isspace) in H.
  apply (kept_match_ci _ _ _ E1) in H. now inversion H.
Qed.

Lemma kept_sub_free_download (s : str) : Forall P s -> Forall P (sub_free_download s).
Proof.
  induction s as [|c t IH]; intros H.
  - cbn. constructor.
  - cbn [sub_free_download].
    destruct (match_free_download (c :: t)) as [r|] eqn:E.
    + now apply (kept_match_free_download _ _ E).
    + inversion H. constructor; auto.
Qed.

Lemma kept_sub_paren_group (s : str) : Forall P s -> Forall P (sub_paren_group s).
Proof.
  induction s as [|c t IH]; intros H; cbn [sub_paren_group].
  - now destruct (match_paren_group []).
  - destruct (match_paren_group (c :: t)); [constructor|].
    inversion H. constructor; auto.
Qed.

Lemma kept_collapse_from (b : bool) (s : str) : Forall P s -> Forall P (collapse_from b s).
Proof.
  revert b. induction s as [|c t IH]; intros b H; [constructor|].
  inversion H. cbn [collapse_from].
  destruct (isspace c); [destruct b|]; try constructor; auto.
Qed.

Lemma kept_clean_text (x : str) : Forall P x -> Forall P (clean_text x).
Proof.
  intros H. unfold clean_text, collapse_spaces, strip.
  apply kept_strip_by, kept_collapse_from, kept_strip_by, kept_sub_paren_group,
    kept_strip_by, kept_sub_free_download, kept_strip_by. exact H.
Qed.

End Kept.

Lemma clean_text_no_char (k : N) (x : str) :
  k <> 32 -> ~ In k x -> ~ In k (clean_text x).
Proof.
  intros Hk Hx Hin.
  assert (F : Forall (fun c => c <> k) (clean_text x)).
  { apply kept_clean_text; [congruence|]. apply Forall_forall. intros c Hc E.
    subst c. now apply Hx. }
  now apply (proj1 (Forall_forall _ _) F k Hin).
Qed.

Lemma unescape_plain (charref_sub : str -> str) (s : str) :
  ~ In ampersand s -> unescape charref_sub s = s.
Proof.
  intros H. unfold unescape.
  destruct (existsb (N.eqb ampersand) s) eqn:E; [|reflexivity].
  apply existsb_exists in E. destruct E as [c [Hc Ec]].
  apply N.eqb_eq in Ec. subst c. contradiction.
Qed.

(* ================================================================== *)
(** * Properties: the "free download" suffix *)

Lemma dot_star_end_line (s : str) : ~ In line_feed s -> dot_star_end s = Some [].
Proof.
  induction s as [|c t IH]; [reflexivity|]. intros H. cbn.
  destruct (c =? line_feed) eqn:E.
  - apply N.eqb_eq in E. exfalso. apply H. now left.
  - apply IH. intros Hin. apply H. now right.
Qed.

Lemma match_free_download_miss (s : str) :
  fd_head s = false -> match_free_download s = None.
Proof.
  unfold fd_head, fd_core, match_free_download.
  destruct (match_ci (lit "free") (lstrip_by isspace s)) as [[|w r]|]; try reflexivity.
  destruct (isspace w); [|reflexivity].
  destruct (match_ci (lit "download") (lstrip_by isspace r)); [discriminate | reflexivity].
Qed.

Lemma match_free_download_hit (s : str) :
  fd_head s = true -> ~ In line_feed s -> match_free_download s = Some [].
Proof.
  unfold fd_head, fd_core, match_free_download. intros H NL.
  assert (F : Forall (fun c => c <> line_feed) s).
  { apply Forall_forall. intros c Hc E. subst c. contradiction. }
  apply (kept_lstrip_by _ isspace) in F.
  destruct (match_ci (lit "free") (lstrip_by isspace s)) as [[|w r]|] eqn:E1;
    try discriminate.
  apply (kept_match_ci _ _ _ _ E1) in F. inversion F as [|? ? _ F']. subst.
  destruct (isspace w); [|discriminate].
  apply (kept_lstrip_by _ isspace) in F'.
  destruct (match_ci (lit "download") (lstrip_by isspace r)) as [r'|] eqn:E2;
    [|discriminate].
  apply (kept_match_ci _ _ _ _ E2) in F'. apply dot_star_end_line.
  intros Hin. now apply (proj1 (Forall_forall _ _) F' _ Hin).
Qed.

Lemma match_ci_app (pat u r b : str) :
  match_ci pat u = Some r -> match_ci pat (u ++ b) = Some (r ++ b).
Proof.
  revert u. induction pat as [|q pat IH]; intros u.
  - cbn. intros E. now injection E as <-.
  - destruct u as [|c u]; [discriminate|]. cbn.
    destruct (lower c =? q); [apply IH | discriminate].
Qed.

Lemma lstrip_by_app (p : N -> bool) (u b : str) :
  lstrip_by p u <> [] -> lstrip_by p (u ++ b) = lstrip_by p u ++ b.
Proof.
  induction u as [|c u IH]; [cbn; congruence|]. cbn. now destruct (p c).
Qed.

Lemma fd_core_app (u b : str) : fd_core u = true -> fd_core (u ++ b) = true.
Proof.
  unfold fd_core.
  destruct (match_ci (lit "free") u) as [[|w r]|] eqn:E1; try discriminate.
  rewrite (match_ci_app _ _ _ b E1). cbn [app]. intros H.
  apply andb_prop in H. destruct H as [-> H]. cbn [andb].
  destruct (match_ci (lit "download") (lstrip_by isspace r)) as [r'|] eqn:E2;
    [|discriminate].
  rewrite lstrip_by_app by (destruct (lstrip_by isspace r); discriminate).
  now rewrite (match_ci_app _ _ _ b E2).
Qed.

Lemma fd_head_app (a b : str) : fd_head a = true -> fd_head (a ++ b) = true.
Proof.
  unfold fd_head. intros H.
  rewrite lstrip_by_app by (destruct (lstrip_by isspace a); discriminate).
  now apply fd_core_app.
Qed.

Lemma fd_head_prefix (a b : str) : fd_head (a ++ b) = false -> fd_head a = false.
Proof.
  intros H. destruct (fd_head a) eqn:E; [|reflexivity].
  now rewrite (fd_head_app a b E) in H.
Qed.

Lemma nofd_nil : nofd [].
Proof. now split. Qed.

Lemma nofd_app (a b : str) : nofd (a ++ b) -> nofd a /\ nofd b.
Proof.
  induction a as [|c a IH]; [intros H; split; [apply nofd_nil | exact H]|].
  cbn [app nofd]. intros [H T]. destruct (IH T) as [Na Nb].
  split; [|exact Nb]. split; [|exact Na].
  apply (fd_head_prefix (c :: a) b). exact H.
Qed.

Lemma nofd_strip_by (p : N -> bool) (s : str) : nofd s -> nofd (strip_by p s).
Proof.
  intros H. destruct (strip_by_piece p s) as [a [w E]]. rewrite E in H.
  apply nofd_app in H. destruct H as [_ H]. apply nofd_app in H. tauto.
Qed.

Lemma sub_free_download_prefix (s : str) :
  ~ In line_feed s -> exists b, s = sub_free_download s ++ b.
Proof.
  induction s as [|c t IH]; intros NL; [now exists []|].
  cbn [sub_free_download]. destruct (fd_head (c :: t)) eqn:E.
  - rewrite (match_free_download_hit _ E NL). now exists (c :: t).
  - rewrite (match_free_download_miss _ E).
    destruct IH as [b Hb]; [intros H; apply NL; now right|].
    exists b. cbn. now f_equal.
Qed.

Lemma nofd_sub_free_download (s : str) :
  ~ In line_feed s -> nofd (sub_free_download s).
Proof.
  induction s as [|c t IH]; intros NL; [apply nofd_nil|].
  assert (NLt : ~ In line_feed t) by (intros H; apply NL; now right).
  cbn [sub_free_download]. destruct (fd_head (c :: t)) eqn:E.
  - rewrite (match_free_download_hit _ E NL). apply nofd_nil.
  - rewrite (match_free_download_miss _ E). split; [|now apply IH].
    destruct (sub_free_download_prefix t NLt) as [b Hb].
    apply (fd_head_prefix _ b). cbn [app]. now rewrite <- Hb.
Qed.

Lemma nofd_fixed (s : str) : nofd s -> sub_free_download s = s.
Proof.
  induction s as [|c t IH]; [reflexivity|]. intros [H T].
  cbn [sub_free_download]. rewrite (match_free_download_miss _ H). f_equal. now apply IH.
Qed.

(** ** Collapsing white space makes no new match *)

Lemma space_not_letter (c q : N) :
  isspace c = true -> 97 <= q <= 122 -> (lower c =? q) = false.
Proof.
  intros Hc Hq. apply N.eqb_neq. unfold lower, isspace in *.
  repeat (apply orb_prop in Hc; destruct Hc as [Hc|Hc]);
    repeat match goal with
           | H : (_ && _) = true |- _ => apply andb_prop in H; destruct H
           | H : (_ <=? _) = true |- _ => apply N.leb_le in H
           | H : (_ =? _) = true |- _ => apply N.eqb_eq in H
           end;
    destruct ((65 <=? c) && (c <=? 90)) eqn:E;
    try (apply andb_prop in E; destruct E as [E1 E2];
         apply N.leb_le in E1; apply N.leb_le in E2); lia.
Qed.

Lemma letters_free : letters (lit "free").
Proof. repeat constructor; cbn; lia. Qed.

Lemma letters_download : letters (lit "download").
Proof. repeat constructor; cbn; lia. Qed.

Lemma match_ci_collapse (pat s : str) :
  letters pat ->
  match_ci pat (collapse_from false s) = option_map (collapse_from false) (match_ci pat s).
Proof.
  intros L. revert s. induction L as [|q pat Hq L IH]; intros s; [reflexivity|].
  destruct s as [|c t]; [reflexivity|]. cbn [collapse_from].
  destruct (isspace c) eqn:Ec; cbn [match_ci].
  - rewrite (space_not_letter 32 q eq_refl Hq), (space_not_letter c q Ec Hq). reflexivity.
  - destruct (lower c =? q); [apply IH | reflexivity].
Qed.

Lemma lstrip_collapse (b : bool) (s : str) :
  lstrip_by isspace (collapse_from b s) = collapse_from false (lstrip_by isspace s).
Proof.
  revert b. induction s as [|c t IH]; intros b; [reflexivity|].
  cbn [collapse_from lstrip_by]. destruct (isspace c) eqn:Ec.
  - destruct b; [apply IH|]. cbn [lstrip_by]. change (isspace 32) with true. apply IH.
  - cbn [lstrip_by collapse_from]. now rewrite Ec.
Qed.

Lemma fd_core_collapse (u : str) : fd_core (collapse_from false u) = fd_core u.
Proof.
  unfold fd_core. rewrite (match_ci_collapse _ _ letters_free).
  destruct (match_ci (lit "free") u) as [[|w r]|]; try reflexivity.
  cbn [option_map collapse_from]. destruct (isspace w) eqn:Ew.
  - change (isspace 32) with true. rewrite lstrip_collapse.
    rewrite (match_ci_collapse _ _ letters_download).
    now destruct (match_ci (lit "download") (lstrip_by isspace r)).
  - now rewrite Ew.
Qed.

Lemma fd_head_collapse (b : bool) (s : str) : fd_head (collapse_from b s) = fd_head s.
Proof. unfold fd_head. rewrite lstrip_collapse. apply fd_core_collapse. Qed.

Lemma nofd_collapse (b : bool) (s : str) : nofd s -> nofd (collapse_from b s).
Proof.
  revert b. induction s as [|c t IH]; intros b; [intros _; apply nofd_nil|].
  intros [H T]. pose proof (fd_head_collapse b (c :: t)) as E. rewrite H in E.
  cbn [collapse_from] in *. destruct (isspace c); [destruct b|].
  - now apply IH.
  - split; [exact E | now apply IH].
  - split; [exact E | now apply IH].
Qed.

(* ================================================================== *)
(** * Properties: the trailing parenthetical group *)

Lemma paren_close_ends (s : str) : paren_close s = true -> ends_paren s.
Proof.
  induction s as [|c t IH]; [discriminate|]. cbn [paren_close]. intros H.
  apply orb_prop in H. destruct H as [H|H]; apply andb_prop in H; destruct H as [H1 H2].
  - apply N.eqb_eq in H1. subst c. now exists [], t.
  - destruct (IH H2) as [a [w [E F]]]. exists (c :: a), w. subst t. now split.
Qed.

Lemma ends_paren_app (a s : str) : ends_paren s -> ends_paren (a ++ s).
Proof.
  intros [a' [w [E F]]]. exists (a ++ a'), w. subst s. now rewrite <- app_assoc.
Qed.

Lemma match_paren_group_ends (s : str) : match_paren_group s = true -> ends_paren s.
Proof.
  unfold match_paren_group. destruct (lstrip_by_suffix isspace s) as [a [E _]].
  destruct (lstrip_by isspace s) as [|c body]; [discriminate|].
  intros H. apply andb_prop in H. destruct H as [_ H].
  rewrite E. apply ends_paren_app. apply (ends_paren_app [c]). now apply paren_close_ends.
Qed.

Lemma sub_paren_group_prefix (s : str) : exists b, s = sub_paren_group s ++ b.
Proof.
  induction s as [|c t [b Hb]]; cbn [sub_paren_group].
  - exists []. now destruct (match_paren_group []).
  - destruct (match_paren_group (c :: t)); [now exists (c :: t)|].
    exists b. cbn. now f_equal.
Qed.

Lemma sub_paren_group_fixed (s : str) :
  ~ ends_paren s -> sub_paren_group s = s.
Proof.
  induction s as [|c t IH]; intros H; cbn [sub_paren_group].
  - now destruct (match_paren_group []).
  - destruct (match_paren_group (c :: t)) eqn:E.
    + exfalso. apply H. now apply match_paren_group_ends.
    + f_equal. apply IH. intros Ht. apply H. now apply (ends_paren_app [c]).
Qed.

(** A string without white space at its end ends in a parenthesis only if
    its last character is one. *)
Lemma ends_paren_last (s : str) :
  rstrip_by isspace s = s -> ends_paren s -> last s 0 = rparen.
Proof.
  intros R [a [w [E F]]]. subst s.
  rewrite (rstrip_by_app isspace a w rparen eq_refl F) in R.
  apply app_inv_head in R. destruct w; [|discriminate]. apply last_last.
Qed.

Lemma strip_by_fixed_parts (p : N -> bool) (s : str) :
  strip_by p s = s -> lstrip_by p s = s /\ rstrip_by p s = s.
Proof.
  intros H. split.
  - destruct (strip_by_cases p s) as [E|[c [m [d [[E|E] [Hc _]]]]]];
      rewrite H in E; subst s; try reflexivity; now apply lstrip_by_fixed.
  - rewrite <- H at 1. unfold strip_by. rewrite rstrip_by_idem. exact H.
Qed.

(* ================================================================== *)
(** * Properties: [clean_name] *)

Example clean_name_plain f : clean_name f (lit "Game Name") = lit "Game Name".
Proof. reflexivity. Qed.

Example clean_name_free_download f :
  clean_name f (lit "Game Name Free Download") = lit "Game Name".
Proof. reflexivity. Qed.

Example clean_name_year f : clean_name f (lit "Game Name (2021)") = lit "Game Name".
Proof. reflexivity. Qed.

Example clean_name_blanks f : clean_name f (lit "  Game   Name  ") = lit "Game Name".
Proof. reflexivity. Qed.

Lemma clean_text_nofd (x : str) : ~ In line_feed x -> nofd (clean_text x).
Proof.
  intros NL. unfold clean_text, collapse_spaces, strip.
  apply nofd_strip_by, nofd_collapse, nofd_strip_by.
  destruct (sub_paren_group_prefix (strip_by isspace (sub_free_download (strip_by isspace x))))
    as [b Hb].
  assert (N1 : nofd (strip_by isspace (sub_free_download (strip_by isspace x)))).
  { apply nofd_strip_by, nofd_sub_free_download. intros H. apply NL.
    now apply (strip_by_In isspace). }
  rewrite Hb in N1. now apply nofd_app in N1.
Qed.

(** On a tidy text without a match of the two suffix patterns, the steps
    of [clean_name] before [html.unescape] change nothing. *)
Lemma clean_text_fixed (r : str) :
  strip r = r -> collapse_spaces r = r ->
  strip_by (one_of stray_punctuation) r = r ->
  nofd r -> ~ ends_paren r ->
  clean_text r = r.
Proof.
  intros S C P F E. unfold clean_text.
  rewrite S, (nofd_fixed r F), S, (sub_paren_group_fixed r E), S, C. exact P.
Qed.

(** C8, as amended. For a text without line feed (so for every printable
    text) and without ['&'], whose normal form does not end in [')'],
    normalizing the normal form again changes nothing. *)
Theorem clean_name_idempotent (charref_sub : str -> str) (x : str) :
  ~ In line_feed x ->
  ~ In ampersand x ->
  last (clean_name charref_sub x) 0 <> rparen ->
  clean_name charref_sub (clean_name charref_sub x) = clean_name charref_sub x.
Proof.
  intros NL NA NP. rewrite (clean_name_text charref_sub x) in *.
  destruct x as [|c x]; [reflexivity|].
  assert (NA' : ~ In ampersand (clean_text (c :: x)))
    by (apply clean_text_no_char; [discriminate | exact NA]).
  rewrite (unescape_plain _ _ NA') in *.
  set (r := clean_text (c :: x)) in *.
  rewrite clean_name_text. destruct r as [|d r'] eqn:Er; [reflexivity|].
  rewrite <- Er in *.
  destruct (clean_text_tidy (c :: x)) as [S [C P]]. fold r in S, C, P.
  rewrite (clean_text_fixed r S C P).
  - now apply unescape_plain.
  - now apply clean_text_nofd.
  - intros E. apply NP. apply ends_paren_last; [|exact E].
    now apply (strip_by_fixed_parts isspace r).
Qed.

(** C8 fails as stated: on the printable text ["Game (2020):"] the colon
    hides the year from the pattern of the trailing group in the first
    pass, and is stripped afterwards; the second pass then removes the
    year. This is so whatever [html.unescape] does with character
    references. *)
Lemma clean_name_not_idempotent :
  ~ exists charref_sub : str -> str,
      forall x, printable_ascii x ->
        clean_name charref_sub (clean_name charref_sub x) = clean_name charref_sub x.
Proof.
  intros [f H].
  assert (P : printable_ascii (lit "Game (2020):")) by (repeat constructor; cbn; lia).
  specialize (H (lit "Game (2020):") P). vm_compute in H. discriminate.
Qed.

Lemma clean_name_idempotent_witness :
  clean_name (fun s => s) (lit "Game Name (2021) Free Download") = lit "Game Name"
  /\ clean_name (fun s => s) (clean_name (fun s => s) (lit "Game Name (2021) Free Download"))
     = clean_name (fun s => s) (lit "Game Name (2021) Free Download").
Proof.
  split; [reflexivity|].
  apply (clean_name_idempotent (fun s => s) (lit "Game Name (2021) Free Download")).
  - vm_compute. intuition discriminate.
  - vm_compute. intuition discriminate.
  - vm_compute. discriminate.
Defined.


(* ================================================================== *)
(** * Properties: the extractor *)

Lemma rebase_relative (path : str) :
  rebase (slash :: path)
  = rstrip_by is_slash (origin ++ lstrip_by is_slash path).
Proof. reflexivity. Qed.

(** A link that does not begin with a slash is passed through, its
    trailing slashes stripped. *)
Lemma rebase_absolute (c : N) (rest : str) :
  c <> slash -> rebase (c :: rest) = rstrip_by is_slash (c :: rest).
Proof.
  intros H. unfold rebase, is_slash. apply N.eqb_neq in H. now rewrite H.
Qed.

Example rebase_test_link :
  rebase (lit "https://steamrip.com/game3-free-download/")
  = lit "https://steamrip.com/game3-free-download".
Proof. reflexivity. Qed.

(** The anchors of the test page of [test_scraper.py]. *)
Example extract_test_page (charref_sub : str -> str) :
  extract_games_from_html charref_sub
    [(lit "/game1-free-download", lit "Game One");
     (lit "/game2-free-download", lit "Game Two Free Download");
     (lit "https://steamrip.com/game3-free-download/", lit "Game Three (2021)")]
  = [game "Game One" "https://steamrip.comgame1-free-download";
     game "Game Two" "https://steamrip.comgame2-free-download";
     game "Game Three" "https://steamrip.com/game3-free-download"].
Proof. reflexivity. Qed.

(** An anchor without text takes its name from the last segment of its
    link. *)
Example extract_name_from_slug (charref_sub : str -> str) :
  extract_games_from_html charref_sub [(lit "https://steamrip.com/some-game-Free-Download/", lit " ")]
  = [game "some game" "https://steamrip.com/some-game-Free-Download"].
Proof. reflexivity. Qed.

(** C7, on the anchor [<a href="/game1-free-download">Game One</a>] of the
    repository's own test page: the link the extractor emits is the origin
    followed by the path without its leading slash; the slash between the
    two is lost. *)
Theorem relative_link_loses_slash (charref_sub : str -> str) :
  extract_games_from_html charref_sub [(lit "/game1-free-download", lit "Game One")]
  = [{| Name := Some (lit "Game One");
        Url := Some (lit "https://steamrip.comgame1-free-download") |}]
  /\ rebase (lit "/game1-free-download") <> lit "https://steamrip.com/game1-free-download".
Proof. split; [reflexivity | discriminate]. Qed.

(* ================================================================== *)
(** * Properties: the catalogue store *)

Lemma has_url_In (u : str) (db : database) :
  has_url u db = true <-> In u (urls db).
Proof.
  unfold has_url, urls. rewrite existsb_exists, in_map_iff. split.
  - intros [r [Hin Heq]]. apply str_eqb_true in Heq. now exists r.
  - intros [r [Heq Hin]]. exists r. split; [assumption|]. now apply str_eqb_true.
Qed.

Lemma has_url_not_In (u : str) (db : database) :
  has_url u db = false <-> ~ In u (urls db).
Proof.
  rewrite <- has_url_In. destruct (has_url u db); split; congruence.
Qed.

Lemma touch_url (u now : str) (r : game_row) : g_Url (touch u now r) = g_Url r.
Proof. unfold touch. now destruct (str_eqb (g_Url r) u). Qed.

Lemma touch_other (u now : str) (r : game_row) : g_Url r <> u -> touch u now r = r.
Proof.
  intros H. unfold touch. apply str_eqb_false in H. now rewrite H.
Qed.

Lemma map_touch_urls (u now : str) (l : list game_row) :
  map g_Url (map (touch u now) l) = map g_Url l.
Proof.
  rewrite map_map. apply map_ext. intros r. apply touch_url.
Qed.

Lemma map_touch_absent (u now : str) (l : list game_row) :
  ~ In u (map g_Url l) -> map (touch u now) l = l.
Proof.
  induction l as [|r l IH]; simpl; intros H; [reflexivity|].
  rewrite touch_other by tauto. f_equal. apply IH. tauto.
Qed.

Lemma insert_game_absent (conn : connection) (name : option str) (url now : str) :
  has_url url (view conn) = false ->
  games (view (insert_game conn name url now))
  = games (view conn) ++ [new_game (view conn) name url now].
Proof.
  intros H. unfold insert_game, insert_or_ignore_game, update_game_last_seen, on_view.
  simpl. rewrite H. simpl. rewrite map_app. simpl.
  rewrite map_touch_absent by (now apply has_url_not_In).
  unfold touch, new_game. simpl. now rewrite str_eqb_refl.
Qed.

Lemma insert_game_frame (conn : connection) (name : option str) (url now : str) :
  runs (view (insert_game conn name url now)) = runs (view conn)
  /\ run_games (view (insert_game conn name url now)) = run_games (view conn)
  /\ committed (insert_game conn name url now) = committed conn.
Proof.
  unfold insert_game, insert_or_ignore_game, update_game_last_seen, on_view. simpl.
  now destruct (has_url url (view conn)).
Qed.

(** The two ways a candidate with a link goes through the loop body. *)
Lemma persist_candidate_known run now first_run conn new_entries g :
  candidate_url g <> [] ->
  has_url (candidate_url g) (view conn) = true ->
  persist_candidate run now first_run (conn, new_entries) g
  = (insert_run_game (update_game_last_seen conn (candidate_url g) now)
       run (Name g) (candidate_url g) false, new_entries).
Proof.
  intros Hne Hex. unfold persist_candidate.
  destruct (candidate_url g) as [|c u] eqn:E; [congruence|]. now rewrite Hex.
Qed.

Lemma persist_candidate_unknown run now first_run conn new_entries g :
  candidate_url g <> [] ->
  has_url (candidate_url g) (view conn) = false ->
  persist_candidate run now first_run (conn, new_entries) g
  = (insert_run_game (insert_game conn (Name g) (candidate_url g) now)
       run (Name g) (candidate_url g) (negb first_run),
     if first_run then new_entries
     else new_entries ++ [{| Name := Name g; Url := Some (candidate_url g) |}]).
Proof.
  intros Hne Hex. unfold persist_candidate.
  destruct (candidate_url g) as [|c u] eqn:E; [congruence|]. rewrite Hex.
  now destruct first_run.
Qed.

Lemma persist_candidate_skip run now first_run st g :
  candidate_url g = [] -> persist_candidate run now first_run st g = st.
Proof.
  intros H. unfold persist_candidate. destruct st as [conn ne]. now rewrite H.
Qed.

Lemma candidate_url_normalized (g : candidate) (u : str) :
  Url g = Some u -> normalized u -> candidate_url g = u.
Proof.
  intros HU [_ Hn]. unfold candidate_url. now rewrite HU.
Qed.

Lemma games_known run now conn name u (new : bool) :
  games (view (insert_run_game (update_game_last_seen conn u now) run name u new))
  = map (touch u now) (games (view conn)).
Proof. reflexivity. Qed.

Lemma urls_known run now conn name u (new : bool) :
  urls (view (insert_run_game (update_game_last_seen conn u now) run name u new))
  = urls (view conn).
Proof. unfold urls. rewrite games_known. apply map_touch_urls. Qed.

Lemma touch_hit (u now : str) (r : game_row) :
  g_Url r = u -> touch u now r = seen_again now r.
Proof.
  intros H. unfold touch. rewrite H, str_eqb_refl. now rewrite <- H.
Qed.

Lemma touch_twice_all (uA uB now : str) (l : list game_row) :
  (forall u, In u (map g_Url l) -> u = uA \/ u = uB) ->
  map (touch uB now) (map (touch uA now) l) = map (seen_again now) l.
Proof.
  intros H. rewrite map_map. apply map_ext_in. intros r Hr.
  assert (Hu : g_Url r = uA \/ g_Url r = uB) by (apply H; now apply in_map).
  destruct (list_eq_dec N.eq_dec (g_Url r) uA) as [EA|NA].
  - rewrite (touch_hit uA now r EA).
    destruct (list_eq_dec N.eq_dec (g_Url r) uB) as [EB|NB].
    + now rewrite touch_hit.
    + now rewrite touch_other.
  - rewrite (touch_other uA now r NA). apply touch_hit. tauto.
Qed.

(** C1. Delta correctness: on a catalogue that holds exactly the links
    [uA] and [uB], [run_persist] on the batch [A; B; C], where the link of
    [C] is not in the catalogue, returns [first_run = false] and
    [new_entries = [C]]; afterwards the catalogue holds the rows of [uA]
    and [uB], seen again, followed by the new row of [C], so exactly the
    three links, and the run is committed. Links are as the extractor
    emits them: not empty and without a trailing slash. *)
Theorem delta_correctness (conn : connection) (now : str) (A B C : candidate)
    (uA uB uC : str) :
  (forall u, In u (urls (view conn)) <-> u = uA \/ u = uB) ->
  Url A = Some uA -> Url B = Some uB -> Url C = Some uC ->
  normalized uA -> normalized uB -> normalized uC ->
  ~ In uC (urls (view conn)) ->
  exists conn',
    run_persist conn now [A; B; C] = (conn', (false, [C]))
    /\ games (view conn')
       = map (seen_again now) (games (view conn))
         ++ [{| game_id := next_id (map game_id (games (view conn)));
                g_Name := Name C; g_Url := uC; first_seen := now; last_seen := now |}]
    /\ (forall u, In u (urls (view conn')) <-> u = uA \/ u = uB \/ u = uC)
    /\ committed conn' = view conn'.
Proof.
  intros Hcat HA HB HC NA NB NC Hnew.
  pose proof (candidate_url_normalized A uA HA NA) as EA.
  pose proof (candidate_url_normalized B uB HB NB) as EB.
  pose proof (candidate_url_normalized C uC HC NC) as EC.
  assert (InA : In uA (urls (view conn))) by (apply Hcat; now left).
  assert (InB : In uB (urls (view conn))) by (apply Hcat; now right).
  assert (Hcount : Nat.eqb (get_games_count conn) 0 = false).
  { unfold get_games_count. unfold urls in InA.
    destruct (games (view conn)); [destruct InA | reflexivity]. }
  unfold run_persist. rewrite Hcount.
  unfold create_run, insert_run. cbv zeta iota beta.
  set (run := next_id (map run_id (runs (view conn)))).
  set (conn0 := commit _).
  assert (G0 : games (view conn0) = games (view conn)) by reflexivity.
  assert (U0 : urls (view conn0) = urls (view conn)) by reflexivity.
  cbn [fold_left].
  rewrite (persist_candidate_known run now false conn0 [] A);
    [| rewrite EA; apply NA | rewrite EA; apply has_url_In; now rewrite U0].
  rewrite EA.
  set (conn1 := insert_run_game (update_game_last_seen conn0 uA now) run (Name A) uA false).
  assert (U1 : urls (view conn1) = urls (view conn))
    by (unfold conn1; now rewrite urls_known).
  rewrite (persist_candidate_known run now false conn1 [] B);
    [| rewrite EB; apply NB | rewrite EB; apply has_url_In; now rewrite U1].
  rewrite EB.
  set (conn2 := insert_run_game (update_game_last_seen conn1 uB now) run (Name B) uB false).
  assert (U2 : urls (view conn2) = urls (view conn))
    by (unfold conn2; now rewrite urls_known).
  assert (G2 : games (view conn2) = map (seen_again now) (games (view conn))).
  { unfold conn2. rewrite games_known. unfold conn1. rewrite games_known, G0.
    apply touch_twice_all. intros u Hu. now apply Hcat. }
  rewrite (persist_candidate_unknown run now false conn2 [] C);
    [| rewrite EC; apply NC | rewrite EC; apply has_url_not_In; now rewrite U2].
  rewrite EC. cbv iota beta.
  assert (G3 : games (view (insert_game conn2 (Name C) uC now))
               = map (seen_again now) (games (view conn))
                 ++ [{| game_id := next_id (map game_id (games (view conn)));
                        g_Name := Name C; g_Url := uC;
                        first_seen := now; last_seen := now |}]).
  { rewrite insert_game_absent by (apply has_url_not_In; now rewrite U2).
    rewrite G2. unfold new_game. rewrite G2, map_map. reflexivity. }
  eexists. split; [|split; [|split]].
  - assert (EQ : {| Name := Name C; Url := Some uC |} = C)
      by (destruct C as [nC urlC]; cbn in HC |- *; now subst urlC).
    cbn [app]. rewrite EQ. reflexivity.
  - exact G3.
  - intros u.
    change (In u (map g_Url (games (view (insert_game conn2 (Name C) uC now))))
            <-> u = uA \/ u = uB \/ u = uC).
    rewrite G3, map_app, in_app_iff, map_map. cbn [map In g_Url].
    change (map (fun x => g_Url (seen_again now x)) (games (view conn)))
      with (urls (view conn)).
    rewrite Hcat. intuition congruence.
  - reflexivity.
Qed.

Lemma delta_correctness_witness :
  exists conn',
    run_persist catalog_ab (lit "t2") [apple; beta; gamma] = (conn', (false, [gamma]))
    /\ games (view conn')
       = map (seen_again (lit "t2")) (games (view catalog_ab))
         ++ [{| game_id := next_id (map game_id (games (view catalog_ab)));
                g_Name := Name gamma; g_Url := lit "u/g";
                first_seen := lit "t2"; last_seen := lit "t2" |}]
    /\ (forall u, In u (urls (view conn'))
                  <-> u = lit "u/a" \/ u = lit "u/b" \/ u = lit "u/g")
    /\ committed conn' = view conn'.
Proof.
  apply (delta_correctness catalog_ab (lit "t2") apple beta gamma
           (lit "u/a") (lit "u/b") (lit "u/g")).
  - intros u. vm_compute. intuition congruence.
  - reflexivity.
  - reflexivity.
  - reflexivity.
  - split; [discriminate | reflexivity].
  - split; [discriminate | reflexivity].
  - split; [discriminate | reflexivity].
  - vm_compute. intros [H|[H|[]]]; discriminate.
Defined.

(** ** The loop of [run_persist] *)

Lemma persist_candidate_urls run now first_run conn ne g :
  urls (view (fst (persist_candidate run now first_run (conn, ne) g)))
  = urls (view conn) ++ (if adds_row (view conn) g then [candidate_url g] else []).
Proof.
  unfold adds_row.
  destruct (candidate_url g) as [|c u] eqn:E.
  - rewrite persist_candidate_skip by assumption. cbn. now rewrite app_nil_r.
  - rewrite <- E. assert (Hne : candidate_url g <> []) by (rewrite E; discriminate).
    destruct (has_url (candidate_url g) (view conn)) eqn:H.
    + rewrite persist_candidate_known by assumption. cbn [fst negb].
      rewrite urls_known. now rewrite app_nil_r.
    + rewrite persist_candidate_unknown by assumption. cbn [fst negb].
      unfold urls.
      change (games (view (insert_run_game (insert_game conn (Name g) (candidate_url g) now)
                run (Name g) (candidate_url g) (negb first_run))))
        with (games (view (insert_game conn (Name g) (candidate_url g) now))).
      rewrite insert_game_absent by assumption. now rewrite map_app.
Qed.

Lemma persist_candidate_frame run now first_run st g :
  committed (fst (persist_candidate run now first_run st g)) = committed (fst st)
  /\ runs (view (fst (persist_candidate run now first_run st g))) = runs (view (fst st)).
Proof.
  destruct st as [conn ne].
  destruct (candidate_url g) as [|c u] eqn:E.
  - rewrite persist_candidate_skip by assumption. now split.
  - assert (Hne : candidate_url g <> []) by (rewrite E; discriminate).
    destruct (has_url (candidate_url g) (view conn)) eqn:H.
    + rewrite persist_candidate_known by assumption. now split.
    + rewrite persist_candidate_unknown by assumption. cbn [fst].
      destruct (insert_game_frame conn (Name g) (candidate_url g) now) as [R [_ K]].
      split; [exact K | exact R].
Qed.

(** The association a candidate with a link leaves: it is marked new
    exactly when the candidate adds a row and the run is not the first. *)
Lemma persist_candidate_run_games run now first_run conn ne g :
  run_games (view (fst (persist_candidate run now first_run (conn, ne) g)))
  = run_games (view conn)
    ++ match candidate_url g with
       | [] => []
       | _ :: _ =>
           [association (view conn) run (Name g) (candidate_url g)
              (adds_row (view conn) g && negb first_run)]
       end.
Proof.
  unfold adds_row.
  destruct (candidate_url g) as [|c u] eqn:E.
  - rewrite persist_candidate_skip by assumption. cbn. now rewrite app_nil_r.
  - rewrite <- E. assert (Hne : candidate_url g <> []) by (rewrite E; discriminate).
    destruct (has_url (candidate_url g) (view conn)) eqn:H.
    + rewrite persist_candidate_known by assumption. reflexivity.
    + rewrite persist_candidate_unknown by assumption. cbn [fst negb andb].
      destruct (insert_game_frame conn (Name g) (candidate_url g) now) as [_ [R _]].
      unfold insert_run_game, on_view, association. cbn [view run_games].
      now rewrite R.
Qed.

Lemma persist_candidate_new_entries run now first_run conn ne g :
  snd (persist_candidate run now first_run (conn, ne) g)
  = ne ++ (if adds_row (view conn) g && negb first_run
           then [{| Name := Name g; Url := Some (candidate_url g) |}] else []).
Proof.
  unfold adds_row.
  destruct (candidate_url g) as [|c u] eqn:E.
  - rewrite persist_candidate_skip by assumption. cbn. now rewrite app_nil_r.
  - rewrite <- E. assert (Hne : candidate_url g <> []) by (rewrite E; discriminate).
    destruct (has_url (candidate_url g) (view conn)) eqn:H.
    + rewrite persist_candidate_known by assumption. cbn. now rewrite app_nil_r.
    + rewrite persist_candidate_unknown by assumption. cbn [snd negb andb].
      destruct first_run; cbn; [now rewrite app_nil_r | reflexivity].
Qed.

Section Loop.

Variables (run : nat) (now : str) (first_run : bool).

Lemma persist_candidate_urls_in conn ne g u :
  In u (urls (view (fst (persist_candidate run now first_run (conn, ne) g))))
  <-> In u (urls (view conn)) \/ (u <> [] /\ candidate_url g = u).
Proof.
  rewrite persist_candidate_urls, in_app_iff. unfold adds_row.
  destruct (candidate_url g) as [|c u0] eqn:EU.
  - cbn. intuition congruence.
  - destruct (has_url (c :: u0) (view conn)) eqn:H; cbn.
    + apply has_url_In in H. intuition (subst; auto; congruence).
    + intuition (subst; auto; congruence).
Qed.

Lemma loop_urls_in results st u :
  In u (urls (view (fst (persist_loop run now first_run results st))))
  <-> In u (urls (view (fst st))) \/ observed results u.
Proof.
  revert st. induction results as [|g rest IH]; intros [conn ne].
  - cbn. split; [tauto|]. intros [H|[_ [g [[] _]]]]. assumption.
  - unfold persist_loop. cbn [fold_left]. fold (persist_loop run now first_run).
    destruct (persist_candidate run now first_run (conn, ne) g) as [conn1 ne1] eqn:E.
    rewrite IH. cbn [fst].
    replace conn1 with (fst (persist_candidate run now first_run (conn, ne) g))
      by now rewrite E.
    rewrite persist_candidate_urls_in. unfold observed. split.
    + intros [[H|[Hne Eg]]|[Hne [g' [Hg' Eg']]]].
      * now left.
      * right. split; [assumption|]. exists g. split; [now left | assumption].
      * right. split; [assumption|]. exists g'. split; [now right | assumption].
    + intros [H|[Hne [g' [[Hg'|Hg'] Eg']]]].
      * left. now left.
      * subst g'. left. right. now split.
      * right. split; [assumption|]. now exists g'.
Qed.

Lemma loop_urls_nodup results st :
  NoDup (urls (view (fst st))) -> NoDup (urls (view (fst (persist_loop run now first_run results st)))).
Proof.
  revert st. induction results as [|g rest IH]; intros [conn ne] ND; [assumption|].
  unfold persist_loop. cbn [fold_left]. fold (persist_loop run now first_run). apply IH.
  destruct (persist_candidate run now first_run (conn, ne) g) as [conn1 ne1] eqn:E.
  replace (fst (conn1, ne1)) with (fst (persist_candidate run now first_run (conn, ne) g))
    by now rewrite E.
  rewrite persist_candidate_urls. unfold adds_row. cbn [fst] in ND.
  destruct (candidate_url g) as [|c u0] eqn:EU; [now rewrite app_nil_r|].
  destruct (has_url (c :: u0) (view conn)) eqn:H; cbn [negb].
  - now rewrite app_nil_r.
  - apply NoDup_app; [assumption | repeat constructor; intros [] |].
    intros x Hx [Hy|[]]. subst x. apply has_url_not_In in H. now apply H.
Qed.

Lemma loop_frame results st :
  committed (fst (persist_loop run now first_run results st)) = committed (fst st)
  /\ runs (view (fst (persist_loop run now first_run results st))) = runs (view (fst st)).
Proof.
  revert st. induction results as [|g rest IH]; intros st; [now split|].
  unfold persist_loop. cbn [fold_left]. fold (persist_loop run now first_run).
  destruct (IH (persist_candidate run now first_run st g)) as [K R].
  destruct (persist_candidate_frame run now first_run st g) as [K1 R1].
  split; congruence.
Qed.

End Loop.

(** ** Whole runs *)

Lemma run_persist_unfold conn now results :
  run_persist conn now results
  = (commit (fst (fold_left
               (persist_candidate (snd (create_run conn now (List.length results))) now
                  (Nat.eqb (get_games_count conn) 0))
               results (fst (create_run conn now (List.length results)), []))),
     (Nat.eqb (get_games_count conn) 0,
      snd (fold_left
             (persist_candidate (snd (create_run conn now (List.length results))) now
                (Nat.eqb (get_games_count conn) 0))
             results (fst (create_run conn now (List.length results)), [])))).
Proof.
  unfold run_persist, create_run, insert_run. cbv zeta beta iota.
  now destruct (fold_left _ _ _).
Qed.

Lemma run_persist_urls conn now results :
  (NoDup (urls (view conn)) -> NoDup (urls (view (fst (run_persist conn now results)))))
  /\ forall u, In u (urls (view (fst (run_persist conn now results))))
               <-> In u (urls (view conn)) \/ observed results u.
Proof.
  rewrite run_persist_unfold. cbn [fst commit view]. split.
  - intros ND. apply loop_urls_nodup. exact ND.
  - intros u. exact (loop_urls_in _ _ _ results _ u).
Qed.

Lemma run_persist_committed conn now results :
  committed (fst (run_persist conn now results))
  = view (fst (run_persist conn now results)).
Proof. rewrite run_persist_unfold. reflexivity. Qed.

(** C5. Catalogue uniqueness: from a [games] table without two rows of the
    same [Url] (the table [init_db] creates is empty, and the column is
    [UNIQUE]), after any sequence of [run_persist] calls on any batches,
    colliding or not, no two rows have the same [Url]: every link in the
    table is there exactly once. The links in the table are those it had
    and those the batches brought. *)
Theorem catalog_one_row_per_url (conn : connection)
    (batches : list (str * list candidate)) :
  NoDup (urls (view conn)) ->
  NoDup (urls (view (run_all conn batches)))
  /\ (forall u, In u (urls (view (run_all conn batches)))
                -> count_occ (list_eq_dec N.eq_dec) (urls (view (run_all conn batches))) u
                   = 1%nat)
  /\ (forall u, In u (urls (view (run_all conn batches)))
                <-> In u (urls (view conn)) \/ observed_in batches u).
Proof.
  intros ND.
  assert (H : NoDup (urls (view (run_all conn batches)))
              /\ (forall u, In u (urls (view (run_all conn batches)))
                            <-> In u (urls (view conn)) \/ observed_in batches u)).
  { revert conn ND. induction batches as [|[now results] rest IH]; intros conn ND.
    - cbn. split; [assumption|]. intros u. split; [tauto|].
      intros [H|[b [[] _]]]. assumption.
    - unfold run_all. cbn [fold_left fst snd]. fold (run_all (fst (run_persist conn now results)) rest).
      destruct (run_persist_urls conn now results) as [ND1 Hin1].
      destruct (IH _ (ND1 ND)) as [ND' Hin']. split; [exact ND'|].
      intros u. rewrite Hin', Hin1. unfold observed_in. split.
      + intros [[H|H]|[b [Hb Ho]]].
        * now left.
        * right. exists (now, results). split; [now left | exact H].
        * right. exists b. split; [now right | exact Ho].
      + intros [H|[b [[Hb|Hb] Ho]]].
        * left. now left.
        * subst b. left. right. exact Ho.
        * right. exists b. now split. }
  destruct H as [ND' Hin]. split; [exact ND'|]. split; [|exact Hin].
  intros u Hu. apply NoDup_count_occ'; assumption.
Qed.

Lemma catalog_one_row_per_url_witness :
  NoDup (urls (view (run_all new_connection
                       [(lit "t1", [apple; game "Apple again" "u/a/"; beta]);
                        (lit "t2", [beta; gamma; gamma])])))
  /\ urls (view (run_all new_connection
                   [(lit "t1", [apple; game "Apple again" "u/a/"; beta]);
                    (lit "t2", [beta; gamma; gamma])]))
     = [lit "u/a"; lit "u/b"; lit "u/g"].
Proof.
  split; [|reflexivity].
  apply (catalog_one_row_per_url new_connection). constructor.
Defined.

(** The two runs of [test_database_operations] in [test_scraper.py]. *)
Example run_persist_twice :
  let g1 := game "Test Game 1" "https://example.com/game1" in
  let g2 := game "Test Game 2" "https://example.com/game2" in
  let g3 := game "Test Game 3" "https://example.com/game3" in
  let first := run_persist new_connection (lit "t1") [g1; g2] in
  let second := run_persist (fst first) (lit "t2") [g1; g2; g3] in
  snd first = (true, [])
  /\ get_games_count (fst first) = 2%nat
  /\ snd second = (false, [g3])
  /\ get_games_count (fst second) = 3%nat.
Proof. repeat split. Qed.

(** ** First run *)




(** ** Seeing a known entry again *)

(** C9. Frame on re-observation: when the loop body of [run_persist] meets
    a candidate whose link is in the catalogue, the [games] table keeps its
    rows in place; the rows of that link get [last_seen = now] and keep
    their id, [Name], [Url] and [first_seen]; every other row is unchanged. *)
Theorem reobservation_frame (run : nat) (now : str) (first_run : bool)
    (conn : connection) (new_entries : list candidate) (g : candidate) :
  candidate_url g <> [] ->
  has_url (candidate_url g) (view conn) = true ->
  Forall2
    (fun r r' =>
       game_id r' = game_id r /\ g_Name r' = g_Name r /\ g_Url r' = g_Url r
       /\ first_seen r' = first_seen r
       /\ (g_Url r = candidate_url g -> last_seen r' = now)
       /\ (g_Url r <> candidate_url g -> r' = r))
    (games (view conn))
    (games (view (fst (persist_candidate run now first_run (conn, new_entries) g)))).
Proof.
  intros Hne Hex. rewrite persist_candidate_known by assumption.
  cbn [fst]. rewrite games_known.
  induction (games (view conn)) as [|r l IH]; cbn [map]; constructor; [|exact IH].
  destruct (list_eq_dec N.eq_dec (g_Url r) (candidate_url g)) as [E|N].
  - rewrite (touch_hit _ now r E). cbn. tauto.
  - rewrite (touch_other _ now r N). tauto.
Qed.

Lemma reobservation_frame_witness :
  Forall2
    (fun r r' =>
       game_id r' = game_id r /\ g_Name r' = g_Name r /\ g_Url r' = g_Url r
       /\ first_seen r' = first_seen r
       /\ (g_Url r = candidate_url (game "Apple II" "u/a/") -> last_seen r' = lit "t2")
       /\ (g_Url r <> candidate_url (game "Apple II" "u/a/") -> r' = r))
    (games (view catalog_ab))
    (games (view (fst (persist_candidate 2%nat (lit "t2") false (catalog_ab, [])
                         (game "Apple II" "u/a/"))))).
Proof.
  apply (reobservation_frame 2%nat (lit "t2") false catalog_ab [] (game "Apple II" "u/a/")).
  - discriminate.
  - reflexivity.
Defined.

(** ** Duplicates in one batch *)

Lemma persist_candidate_new_entries_ok run now first_run st g :
  new_entries_ok st -> new_entries_ok (persist_candidate run now first_run st g).
Proof.
  destruct st as [conn ne]. intros [ND Hin]. cbn [fst snd] in ND, Hin.
  unfold new_entries_ok.
  rewrite persist_candidate_new_entries.
  assert (Hmono : forall u, In u (urls (view conn)) ->
            In u (urls (view (fst (persist_candidate run now first_run (conn, ne) g))))).
  { intros u Hu. rewrite persist_candidate_urls. apply in_or_app. now left. }
  destruct (adds_row (view conn) g && negb first_run) eqn:Hadd.
  - apply andb_prop in Hadd. destruct Hadd as [Hadd _].
    assert (Hfresh : ~ In (candidate_url g) (urls (view conn))).
    { unfold adds_row in Hadd. destruct (candidate_url g); [discriminate|].
      apply has_url_not_In. now destruct (has_url _ _). }
    split.
    + rewrite map_app. cbn [map Url]. apply NoDup_app; [assumption | repeat constructor; intros [] |].
      intros x Hx [Hy|[]]. subst x. apply in_map_iff in Hx.
      destruct Hx as [e [He Hine]]. destruct (Hin e Hine) as [u [Hu Hiu]].
      rewrite Hu in He. injection He as He. subst u. now apply Hfresh.
    + intros e He. apply in_app_or in He. destruct He as [He|[He|[]]].
      * destruct (Hin e He) as [u [Hu Hiu]]. exists u. split; [assumption | now apply Hmono].
      * subst e. exists (candidate_url g). split; [reflexivity|].
        rewrite persist_candidate_urls, Hadd. apply in_or_app. right. now left.
  - rewrite app_nil_r. split; [assumption|].
    intros e He. destruct (Hin e He) as [u [Hu Hiu]]. exists u. split; [assumption | now apply Hmono].
Qed.

Lemma loop_new_entries_ok run now first_run results st :
  new_entries_ok st ->
  new_entries_ok (fold_left (persist_candidate run now first_run) results st).
Proof.
  revert st. induction results as [|g rest IH]; intros st H; [exact H|].
  cbn [fold_left]. apply IH. now apply persist_candidate_new_entries_ok.
Qed.


(** Once the loop of [run_persist] has gone through a candidate [g1], a
    later candidate [g2] whose link is the same after trimming (and not
    empty) finds the link in the catalogue: it adds no row, it is not
    appended to [new_entries], and it leaves an association with
    [is_new = false]. *)
Lemma duplicate_in_loop (now : str) (run : nat) (first_run : bool)
    (st : connection * list candidate) (g1 : candidate) (between : list candidate)
    (g2 : candidate) :
  candidate_url g1 = candidate_url g2 ->
  candidate_url g2 <> [] ->
  let st1 := fold_left (persist_candidate run now first_run) (g1 :: between) st in
  let st2 := persist_candidate run now first_run st1 g2 in
  urls (view (fst st2)) = urls (view (fst st1))
  /\ snd st2 = snd st1
  /\ run_games (view (fst st2))
     = run_games (view (fst st1))
       ++ [association (view (fst st1)) run (Name g2) (candidate_url g2) false].
Proof.
  intros Heq Hne st1 st2.
  assert (Hin : In (candidate_url g2) (urls (view (fst st1)))).
  { unfold st1. apply (loop_urls_in run now first_run (g1 :: between) st). right.
    split; [assumption|].
    exists g1. split; [now left | assumption]. }
  apply has_url_In in Hin.
  unfold st2. destruct st1 as [conn1 ne1]. cbn [fst snd] in *.
  rewrite persist_candidate_known by assumption. cbn [fst snd].
  rewrite urls_known. repeat split.
Qed.

(* ================================================================== *)
(** * Properties: runs over a store that can fail *)

(** The loop body agrees with [persist_candidate] when the store answers,
    uses at most four calls, and commits nothing either way. *)
Lemma persist_candidate_s_spec run now first_run ne g calls conn :
  committed (conn_of (persist_candidate_s run now first_run ne g calls conn))
  = committed conn
  /\ (forall ne' calls' conn',
        persist_candidate_s run now first_run ne g calls conn = Returned ne' calls' conn' ->
        persist_candidate run now first_run (conn, ne) g = (conn', ne')
        /\ (calls <= calls' + 4)%nat)
  /\ ((4 <= calls)%nat ->
      exists ne' calls' conn',
        persist_candidate_s run now first_run ne g calls conn = Returned ne' calls' conn').
Proof.
  destruct (candidate_url g) as [|c u] eqn:E.
  - rewrite (persist_candidate_skip run now first_run (conn, ne) g E).
    store_step. rewrite E. cbn. split; [reflexivity|]. split.
    + intros ne' calls' conn' H. injection H as <- <- <-.
      split; [reflexivity | lia].
    + intros _. now eexists _, _, _.
  - assert (Hne : candidate_url g <> []) by (rewrite E; discriminate).
    destruct (has_url (candidate_url g) (view conn)) eqn:H.
    + rewrite (persist_candidate_known run now first_run conn ne g Hne H).
      store_step. rewrite E. rewrite E in H.
      destruct calls as [|[|[|calls]]]; cbn; rewrite ?H; cbn;
        (split; [reflexivity|]); (split; [|intros; try lia; now eexists _, _, _]);
        intros ne' calls' conn' R; try discriminate.
      injection R as <- <- <-. split; [reflexivity | lia].
    + rewrite (persist_candidate_unknown run now first_run conn ne g Hne H).
      store_step. rewrite E. rewrite E in H.
      destruct (insert_game_frame conn (Name g) (c :: u) now) as [_ [_ K]].
      destruct calls as [|[|[|[|calls]]]]; cbn; rewrite ?H; cbn;
        (split; [try reflexivity|]); try (now destruct (has_url (c :: u) (view conn)));
        (split; [|intros; try lia; now eexists _, _, _]);
        intros ne' calls' conn' R; try discriminate.
      injection R as <- <- <-. split; [|lia].
      unfold insert_game. now destruct first_run.
Qed.

Lemma persist_loop_s_spec run now first_run results ne calls conn :
  committed (conn_of (persist_loop_s run now first_run results ne calls conn))
  = committed conn
  /\ (forall ne' calls' conn',
        persist_loop_s run now first_run results ne calls conn = Returned ne' calls' conn' ->
        fold_left (persist_candidate run now first_run) results (conn, ne) = (conn', ne'))
  /\ ((4 * List.length results <= calls)%nat ->
      exists ne' calls' conn',
        persist_loop_s run now first_run results ne calls conn = Returned ne' calls' conn'
        /\ (calls <= calls' + 4 * List.length results)%nat).
Proof.
  revert ne calls conn. induction results as [|g rest IH]; intros ne calls conn.
  - cbn. split; [reflexivity|]. split.
    + intros ne' calls' conn' H. now injection H as <- <- <-.
    + intros _. eexists _, _, _. split; [reflexivity | lia].
  - cbn [persist_loop_s]. unfold bind.
    destruct (persist_candidate_s_spec run now first_run ne g calls conn) as [K [R T]].
    destruct (persist_candidate_s run now first_run ne g calls conn)
      as [ne1 calls1 conn1|conn1] eqn:E.
    + destruct (R ne1 calls1 conn1 eq_refl) as [R1 Hc].
      destruct (IH ne1 calls1 conn1) as [K' [R' T']]. cbn [conn_of] in K.
      split; [congruence|]. split.
      * intros ne' calls' conn' H. cbn [fold_left]. rewrite R1. now apply (R' ne' calls').
      * intros Hcalls. cbn [List.length] in Hcalls.
        destruct T' as [ne' [calls' [conn' [H Hc']]]]; [lia|].
        exists ne', calls', conn'. split; [exact H|]. cbn [List.length]. lia.
    + cbn [conn_of] in *. split; [exact K|]. split; [discriminate|].
      intros Hcalls. cbn [List.length] in Hcalls.
      destruct T as [? [? [? T]]]; [lia | discriminate].
Qed.

(** When the store answers four calls for the run and four for each
    candidate, the run over the store returns what [run_persist] returns,
    and leaves the connection [run_persist] leaves. *)
Lemma run_persist_s_returns now results calls conn :
  (4 * List.length results + 4 <= calls)%nat ->
  exists calls',
    run_persist_s now results calls conn
    = Returned (snd (run_persist conn now results)) calls' (fst (run_persist conn now results)).
Proof.
  intros Hcalls. rewrite run_persist_unfold. cbn [fst snd].
  unfold run_persist_s, get_games_count_s, create_run_s, bind, call, ret.
  destruct calls as [|[|[|calls]]]; try lia.
  unfold create_run. cbn [insert_run fst snd].
  set (conn0 := commit _). set (run := next_id _).
  destruct (persist_loop_s_spec run now (Nat.eqb (get_games_count conn) 0)
              results [] calls conn0) as [_ [R T]].
  destruct T as [ne' [calls' [conn' [H Hc]]]]; [lia|].
  rewrite H. rewrite (R _ _ _ H). cbn [fst snd].
  destruct calls' as [|calls']; [lia|]. now exists calls'.
Qed.

Lemma run_persist_s_returns_witness :
  exists calls',
    run_persist_s (lit "t2") [apple; gamma] 12%nat catalog_ab
    = Returned (snd (run_persist catalog_ab (lit "t2") [apple; gamma])) calls'
        (fst (run_persist catalog_ab (lit "t2") [apple; gamma])).
Proof.
  apply (run_persist_s_returns (lit "t2") [apple; gamma] 12%nat catalog_ab).
  cbn. lia.
Defined.

(** C3 fails as stated: the run raises, and the file is not as it was: it
    holds the row of the run, with no game and without the association
    that the same run writes when the store answers. *)
Lemma failed_run_not_rolled_back :
  ~ rolled_back new_connection failed_run
  /\ durable failed_run
     = {| runs := [{| run_id := 1%nat; run_at := lit "t1"; snapshot_count := 1%nat |}];
          run_games := []; games := [] |}
  /\ associations 1%nat (durable failed_run) = []
  /\ associations 1%nat (committed (fst (run_persist new_connection (lit "t1") [apple])))
     = [{| rg_id := 1%nat; rg_run_id := 1%nat; rg_Name := Name apple;
           rg_Url := lit "u/a"; is_new := false |}].
Proof.
  split; [|repeat split]. vm_compute. discriminate.
Qed.

(** C3, as amended. [create_run] commits the row of the run on its own,
    before any candidate is looked at; the rows of [games] and the
    associations are committed together by the commit that ends
    [run_persist]. So a run that raises has committed either nothing (the
    store failed within the first three calls) or the row of the run alone,
    with none of the rows and associations of its batch. *)
Theorem failed_run_keeps_run_row (now : str) (results : list candidate) (calls : nat)
    (conn conn' : connection) :
  run_persist_s now results calls conn = Raised conn' ->
  ((calls < 3)%nat /\ committed conn' = committed conn)
  \/ ((3 <= calls)%nat
      /\ committed conn'
         = {| runs := runs (view conn)
                      ++ [{| run_id := next_id (map run_id (runs (view conn)));
                             run_at := now; snapshot_count := List.length results |}];
              run_games := run_games (view conn);
              games := games (view conn) |}).
Proof.
  unfold run_persist_s, get_games_count_s, create_run_s, bind, call, ret.
  destruct calls as [|[|[|calls]]]; cbn [insert_run].
  - intros H. injection H as <-. left. split; [lia | reflexivity].
  - intros H. injection H as <-. left. split; [lia | reflexivity].
  - intros H. injection H as <-. left. split; [lia | reflexivity].
  - set (conn0 := commit _). set (run := next_id _).
    destruct (persist_loop_s_spec run now (Nat.eqb (get_games_count conn) 0)
                results [] calls conn0) as [K [R _]].
    destruct (persist_loop_s run now _ results [] calls conn0)
      as [ne1 calls1 conn1|conn1] eqn:E; cbn [conn_of] in K.
    + destruct calls1; [|discriminate].
      intros H. injection H as <-. right. split; [lia|]. rewrite K. reflexivity.
    + intros H. injection H as <-. right. split; [lia|]. rewrite K. reflexivity.
Qed.

Lemma failed_run_keeps_run_row_witness :
  failed_run = Raised (conn_of failed_run)
  /\ (((3 < 3)%nat /\ committed (conn_of failed_run) = committed new_connection)
      \/ ((3 <= 3)%nat
          /\ committed (conn_of failed_run)
             = {| runs := runs (view new_connection)
                          ++ [{| run_id := next_id (map run_id (runs (view new_connection)));
                                 run_at := lit "t1"; snapshot_count := List.length [apple] |}];
                  run_games := run_games (view new_connection);
                  games := games (view new_connection) |})).
Proof.
  split; [reflexivity|].
  apply (failed_run_keeps_run_row (lit "t1") [apple] 3%nat new_connection (conn_of failed_run)).
  reflexivity.
Defined.

(* ================================================================== *)
(** * Properties: the historical feed *)

Lemma url_set_keyed (feed : list candidate) :
  keyed feed ->
  exists us, url_set feed = Some us
             /\ forall g u, Url g = Some u -> existsb (str_eqb u) us = in_feed feed g.
Proof.
  induction feed as [|e feed IH]; intros K.
  - exists []. split; [reflexivity|]. reflexivity.
  - destruct IH as [us [E H]]; [intros g Hg; apply K; now right|].
    cbn [url_set]. destruct (Url e) as [a|] eqn:Ea; [|exfalso; apply (K e); [now left | assumption]].
    rewrite E. exists (a :: us). split; [reflexivity|].
    intros g u Hu. cbn [existsb in_feed]. unfold in_feed in H |- *. cbn [existsb].
    rewrite Ea, Hu, (H g u Hu), Hu. f_equal.
    unfold str_eqb. destruct (list_eq_dec N.eq_dec u a), (list_eq_dec N.eq_dec a u); congruence.
Qed.

Lemma not_in_keyed (feed new_entries : list candidate) (us : list str) :
  keyed new_entries ->
  (forall g u, Url g = Some u -> existsb (str_eqb u) us = in_feed feed g) ->
  not_in us new_entries = Some (truly_new feed new_entries).
Proof.
  intros K H. induction new_entries as [|g l IH]; [reflexivity|].
  cbn [not_in truly_new filter].
  destruct (Url g) as [u|] eqn:Eu; [|exfalso; apply (K g); [now left | assumption]].
  fold (truly_new feed l). rewrite IH by (intros x Hx; apply K; now right).
  cbn [option_map]. rewrite (H g u Eu). unfold in_feed.
  destruct (existsb _ feed); reflexivity.
Qed.

Lemma save_new_games_file_keyed (new_entries : list candidate) (file : feed_file)
    (feed : list candidate) :
  keyed new_entries -> load_json_games file = Some (Games feed) -> keyed feed ->
  save_new_games_file new_entries file
  = Some (match truly_new feed new_entries with
          | [] => file
          | _ :: _ => Holds (truly_new feed new_entries ++ feed)
          end).
Proof.
  intros Kn L Kf. unfold save_new_games_file.
  destruct new_entries as [|g l]; [reflexivity|].
  rewrite L. cbn [existing_urls_of].
  destruct (url_set_keyed _ Kf) as [us [E H]]. rewrite E.
  rewrite (not_in_keyed _ _ us Kn H).
  now destruct (truly_new feed (g :: l)).
Qed.

(** C4. Historical-feed merge policy: for new entries, not none, and a
    loaded feed, every game with its ["Url"], [save_new_games_file] takes
    the new entries whose link is not in the feed, in their order; when
    there is none it leaves the file as it is; otherwise it rewrites the
    file as these entries followed by the feed as loaded, in its order. *)
Theorem feed_merge_policy (new_entries : list candidate) (file : feed_file)
    (feed : list candidate) :
  new_entries <> [] ->
  keyed new_entries -> load_json_games file = Some (Games feed) -> keyed feed ->
  save_new_games_file new_entries file
  = Some (match truly_new feed new_entries with
          | [] => file
          | _ :: _ => Holds (truly_new feed new_entries ++ feed)
          end).
Proof.
  intros _ Kn L Kf. now apply save_new_games_file_keyed.
Qed.

Lemma feed_merge_policy_witness :
  save_new_games_file [gamma; beta] (Holds [beta; apple])
  = Some (Holds ([gamma] ++ [beta; apple])).
Proof.
  apply (feed_merge_policy [gamma; beta] (Holds [beta; apple]) [beta; apple]).
  - discriminate.
  - intros g [H|[H|[]]]; subst g; discriminate.
  - reflexivity.
  - intros g [H|[H|[]]]; subst g; discriminate.
Defined.

(** The first feed, a later discovery put before it, and the same
    discovery met again. *)
Example feed_scenarios :
  save_new_games_file [beta] Absent = Some (Holds [beta])
  /\ save_new_games_file [gamma] (Holds [beta]) = Some (Holds [gamma; beta])
  /\ save_new_games_file [gamma] (Holds [gamma; beta]) = Some (Holds [gamma; beta])
  /\ save_new_games_file [] Absent = Some Absent.
Proof. repeat split. Qed.

Lemma truly_new_empty_feed (new_entries : list candidate) :
  truly_new [] new_entries = new_entries.
Proof.
  unfold truly_new. induction new_entries as [|g l IH]; [reflexivity|].
  cbn [filter]. rewrite IH. reflexivity.
Qed.

Lemma not_in_nothing (new_entries truly_new : list candidate) :
  not_in [] new_entries = Some truly_new -> truly_new = new_entries.
Proof.
  revert truly_new. induction new_entries as [|g l IH]; intros truly_new H.
  - cbn in H. congruence.
  - cbn [not_in existsb] in H. destruct (Url g); [|discriminate].
    destruct (not_in [] l) as [rest|]; [|discriminate].
    cbn [option_map] in H. injection H as <-. now rewrite (IH rest).
Qed.

(** Valid JSON that is no list makes [save_new_games_file] raise as soon as
    there is a new entry, whatever the new entries are. *)
Lemma save_new_games_file_other (new_entries : list candidate) (v : other_json) :
  new_entries <> [] -> save_new_games_file new_entries (Other v) = None.
Proof.
  intros Hne. destruct new_entries as [|g l]; [contradiction|].
  unfold save_new_games_file. cbn [load_json_games].
  destruct v as [|[|c t]|[|k ks]|]; cbn [existing_urls_of]; try reflexivity;
    (destruct (not_in [] (g :: l)) as [truly_new|] eqn:E; [|reflexivity];
     apply not_in_nothing in E; subst truly_new; reflexivity).
Qed.

(** C6, as amended. Feed read failure: when the feed file is not there, or
    is there with content on which [json.load] raises, [load_json_games]
    gives the empty feed and [save_new_games_file] goes on as with no
    history: it raises nothing and, given new entries, leaves a file that
    holds them. The recovery goes no further: when the file is there and
    cannot be opened, [load_json_games] raises; when it holds JSON that is
    no list, [load_json_games] returns that value as it is; and in both
    cases [save_new_games_file] raises as soon as there is a new entry. *)
Theorem feed_read_failure_recovered (new_entries : list candidate) :
  keyed new_entries ->
  (forall file, file = Absent \/ file = Corrupt ->
     load_json_games file = Some (Games [])
     /\ save_new_games_file new_entries file
        = Some (match new_entries with [] => file | _ :: _ => Holds new_entries end))
  /\ load_json_games Unopenable = None
  /\ (forall v, load_json_games (Other v) = Some (Value v))
  /\ (new_entries <> [] ->
      save_new_games_file new_entries Unopenable = None
      /\ forall v, save_new_games_file new_entries (Other v) = None).
Proof.
  intros K. split; [|split; [reflexivity | split; [reflexivity|]]].
  - intros file Hfile.
    assert (L : load_json_games file = Some (Games []))
      by (destruct Hfile; subst; reflexivity).
    split; [exact L|].
    destruct new_entries as [|g l]; [reflexivity|].
    rewrite (save_new_games_file_keyed _ _ [] K L) by (intros x []).
    rewrite truly_new_empty_feed, app_nil_r. reflexivity.
  - intros Hne. split.
    + destruct new_entries as [|g l]; [contradiction | reflexivity].
    + intros v. now apply save_new_games_file_other.
Qed.

Lemma feed_read_failure_recovered_witness :
  load_json_games Corrupt = Some (Games [])
  /\ save_new_games_file [gamma] Corrupt = Some (Holds [gamma]).
Proof.
  apply (proj1 (feed_read_failure_recovered [gamma]
                  ltac:(intros g [H|[]]; subst g; discriminate)) Corrupt).
  now right.
Defined.

(** C6 fails as stated, on a file that is there and cannot be read as a
    feed: on a path [open] refuses, [load_json_games] raises, and on
    a file that holds the object [{"games": ...}] it returns the object;
    given the new entry [gamma], [save_new_games_file] raises in both
    cases. *)
Lemma feed_read_failure_propagates :
  ~ recovered [gamma] Unopenable
  /\ ~ recovered [gamma] (Other (Object [lit "games"]))
  /\ load_json_games Unopenable = None
  /\ save_new_games_file [gamma] Unopenable = None
  /\ load_json_games (Other (Object [lit "games"])) = Some (Value (Object [lit "games"]))
  /\ save_new_games_file [gamma] (Other (Object [lit "games"])) = None.
Proof.
  repeat split; intros [H _]; discriminate H.
Qed.

(* ================================================================== *)
(** * Further properties: what a run does to the store *)

Lemma known_has_url (u : str) (db : database) :
  existsb (str_eqb u) (urls db) = has_url u db.
Proof.
  unfold has_url, urls. induction (games db) as [|r l IH]; [reflexivity|].
  cbn [map existsb]. rewrite IH. f_equal.
  unfold str_eqb. destruct (list_eq_dec N.eq_dec u (g_Url r)),
    (list_eq_dec N.eq_dec (g_Url r) u); congruence.
Qed.

Lemma seen_again_twice (now : str) (r : game_row) :
  seen_again now (seen_again now r) = seen_again now r.
Proof. reflexivity. Qed.

Lemma refresh_touch (now u : str) (seen_links : list str) (r : game_row) :
  refresh now seen_links (touch u now r) = refresh now (u :: seen_links) r.
Proof.
  unfold refresh, touch. cbn [existsb].
  destruct (str_eqb (g_Url r) u); cbn [orb g_Url seen_again]; [|reflexivity].
  now destruct (existsb _ seen_links).
Qed.

Lemma refresh_other (now u : str) (seen_links : list str) (r : game_row) :
  g_Url r <> u -> refresh now (u :: seen_links) r = refresh now seen_links r.
Proof.
  intros H. unfold refresh. cbn [existsb]. apply str_eqb_false in H. now rewrite H.
Qed.

Lemma refresh_now (now : str) (seen_links : list str) (r : game_row) :
  last_seen r = now -> refresh now seen_links r = r.
Proof.
  intros H. unfold refresh. destruct (existsb _ seen_links); [|reflexivity].
  destruct r. cbn in *. now subst.
Qed.

Lemma map_touch_ids (u now : str) (l : list game_row) :
  map game_id (map (touch u now) l) = map game_id l.
Proof.
  rewrite map_map. apply map_ext. intros r. unfold touch.
  now destruct (str_eqb (g_Url r) u).
Qed.

Lemma list_max_snoc (l : list nat) : list_max (l ++ [S (list_max l)]) = S (list_max l).
Proof. rewrite list_max_app. cbn. lia. Qed.

Section Effect.

Variables (run : nat) (now : str) (first_run : bool).

Lemma classify_step (conn : connection) (g : candidate) (t : list candidate) :
  classify (urls (view conn)) (g :: t)
  = match candidate_url g with
    | [] => classify (urls (view conn)) t
    | _ :: _ =>
        (g, adds_row (view conn) g)
        :: classify (urls (view conn)
                     ++ (if adds_row (view conn) g then [candidate_url g] else [])) t
    end.
Proof.
  cbn [classify]. unfold adds_row.
  destruct (candidate_url g) as [|c u] eqn:E; [reflexivity|].
  rewrite known_has_url. destruct (has_url (c :: u) (view conn)); cbn [negb].
  - now rewrite app_nil_r.
  - reflexivity.
Qed.

Lemma links_step (g : candidate) (t : list candidate) :
  links (g :: t)
  = match candidate_url g with [] => links t | _ :: _ => candidate_url g :: links t end.
Proof.
  unfold links. cbn [filter]. unfold has_link at 1.
  destruct (candidate_url g) eqn:E; cbn [map]; rewrite ?E; reflexivity.
Qed.

(** The rows of [games] after the loop. *)
Lemma loop_games (results : list candidate) (conn : connection) (ne : list candidate) :
  games (view (fst (persist_loop run now first_run results (conn, ne))))
  = map (refresh now (links results)) (games (view conn))
    ++ new_rows (list_max (map game_id (games (view conn)))) now
         (fresh (urls (view conn)) results).
Proof.
  revert conn ne. induction results as [|g t IH]; intros conn ne.
  - cbn. rewrite app_nil_r. symmetry. rewrite <- (map_id (games (view conn))) at 2.
    apply map_ext. intros r. reflexivity.
  - unfold persist_loop. cbn [fold_left]. fold (persist_loop run now first_run).
    unfold fresh. rewrite classify_step, links_step.
    destruct (candidate_url g) as [|c u] eqn:E.
    + rewrite persist_candidate_skip by assumption. apply IH.
    + rewrite <- E in *.
      assert (Hne : candidate_url g <> []) by (rewrite E; discriminate).
      unfold adds_row. rewrite E. rewrite <- E.
      destruct (has_url (candidate_url g) (view conn)) eqn:H; cbn [negb].
      * rewrite persist_candidate_known by assumption.
        rewrite IH. rewrite urls_known, games_known, map_touch_ids, app_nil_r.
        cbn [filter snd]. f_equal. rewrite map_map. apply map_ext. intros r.
        apply refresh_touch.
      * rewrite persist_candidate_unknown by assumption.
        rewrite IH.
        assert (G : games (view (insert_run_game (insert_game conn (Name g) (candidate_url g) now)
                        run (Name g) (candidate_url g) (negb first_run)))
                    = games (view conn) ++ [new_game (view conn) (Name g) (candidate_url g) now])
          by (apply insert_game_absent; assumption).
        unfold urls at 1. rewrite G. rewrite !map_app. cbn [map filter snd fst new_rows].
        unfold new_game at 3. cbn [game_id]. unfold next_id. rewrite list_max_snoc.
        rewrite <- app_assoc. cbn [app]. f_equal.
        -- apply map_ext_in. intros r Hr. symmetry. apply refresh_other.
           apply has_url_not_In in H. intros Heq. apply H. rewrite <- Heq.
           now apply in_map.
        -- rewrite refresh_now by reflexivity. reflexivity.
Qed.

(** The associations after the loop. *)
Lemma loop_run_games (results : list candidate) (conn : connection) (ne : list candidate) :
  run_games (view (fst (persist_loop run now first_run results (conn, ne))))
  = run_games (view conn)
    ++ new_associations (list_max (map rg_id (run_games (view conn)))) run first_run
         (classify (urls (view conn)) results).
Proof.
  revert conn ne. induction results as [|g t IH]; intros conn ne.
  - cbn. now rewrite app_nil_r.
  - unfold persist_loop. cbn [fold_left]. fold (persist_loop run now first_run).
    pose proof (persist_candidate_run_games run now first_run conn ne g) as HR.
    pose proof (persist_candidate_urls run now first_run conn ne g) as HU.
    rewrite classify_step.
    destruct (persist_candidate run now first_run (conn, ne) g) as [conn1 ne1].
    cbn [fst] in HR, HU. rewrite IH, HR, HU.
    destruct (candidate_url g) as [|c u] eqn:E.
    + rewrite !app_nil_r. unfold adds_row. rewrite E. now rewrite app_nil_r.
    + rewrite <- E. rewrite map_app. cbn [map new_associations].
      unfold association at 2. cbn [rg_id]. unfold next_id. rewrite list_max_snoc.
      rewrite <- app_assoc. reflexivity.
Qed.

(** The new entries after the loop. *)
Lemma loop_new_entries (results : list candidate) (conn : connection) (ne : list candidate) :
  snd (persist_loop run now first_run results (conn, ne))
  = ne ++ (if first_run then [] else map entry_of (fresh (urls (view conn)) results)).
Proof.
  revert conn ne. induction results as [|g t IH]; intros conn ne.
  - cbn. destruct first_run; now rewrite app_nil_r.
  - unfold persist_loop. cbn [fold_left]. fold (persist_loop run now first_run).
    pose proof (persist_candidate_new_entries run now first_run conn ne g) as HN.
    pose proof (persist_candidate_urls run now first_run conn ne g) as HU.
    unfold fresh. rewrite classify_step.
    destruct (persist_candidate run now first_run (conn, ne) g) as [conn1 ne1].
    cbn [fst snd] in HN, HU. rewrite IH, HN, HU. unfold fresh.
    destruct (candidate_url g) as [|c u] eqn:E.
    + unfold adds_row. rewrite E. cbn [andb]. now rewrite !app_nil_r.
    + rewrite <- E. destruct first_run; cbn [negb].
      * now rewrite andb_false_r, !app_nil_r.
      * rewrite andb_true_r, <- app_assoc. f_equal.
        destruct (adds_row (view conn) g); reflexivity.
Qed.

End Effect.

Lemma run_persist_loop conn now results :
  run_persist conn now results
  = (commit (fst (persist_loop (snd (create_run conn now (List.length results))) now
                    (Nat.eqb (get_games_count conn) 0) results
                    (fst (create_run conn now (List.length results)), []))),
     (Nat.eqb (get_games_count conn) 0,
      snd (persist_loop (snd (create_run conn now (List.length results))) now
             (Nat.eqb (get_games_count conn) 0) results
             (fst (create_run conn now (List.length results)), [])))).
Proof. apply run_persist_unfold. Qed.

Lemma first_run_is_empty (conn : connection) :
  Nat.eqb (get_games_count conn) 0 = is_empty (games (view conn)).
Proof. unfold get_games_count. now destruct (games (view conn)). Qed.

Lemma in_classify (known : list str) (results : list candidate) (g : candidate) (b : bool) :
  In (g, b) (classify known results) -> In g results /\ candidate_url g <> [].
Proof.
  revert known. induction results as [|g' t IH]; intros known; [intros []|].
  cbn [classify]. destruct (candidate_url g') as [|c u] eqn:E.
  - intros H. destruct (IH _ H). split; [now right | assumption].
  - destruct (existsb (str_eqb (c :: u)) known); intros [H|H];
      try (injection H as <- _; split; [now left | rewrite E; discriminate]);
      destruct (IH _ H); (split; [now right | assumption]).
Qed.

Lemma in_new_associations last_id run first_run l a :
  In a (new_associations last_id run first_run l) ->
  rg_run_id a = run /\ exists g b, In (g, b) l /\ rg_Url a = candidate_url g.
Proof.
  revert last_id. induction l as [|[g b] t IH]; intros last_id; [intros []|].
  cbn [new_associations]. intros [H|H].
  - subst a. split; [reflexivity|]. exists g, b. split; [now left | reflexivity].
  - destruct (IH _ H) as [R [g' [b' [Hin E]]]]. split; [assumption|].
    exists g', b'. split; [now right | assumption].
Qed.

(** The run as a whole, from the lemmas on its loop. *)
Lemma run_persist_effect conn now results :
  snd (snd (run_persist conn now results))
  = (if is_empty (games (view conn)) then []
     else map entry_of (fresh (urls (view conn)) results))
  /\ games (view (fst (run_persist conn now results)))
     = map (refresh now (links results)) (games (view conn))
       ++ new_rows (list_max (map game_id (games (view conn)))) now
            (fresh (urls (view conn)) results)
  /\ runs (view (fst (run_persist conn now results)))
     = runs (view conn)
       ++ [{| run_id := next_id (map run_id (runs (view conn))); run_at := now;
              snapshot_count := List.length results |}]
  /\ exists added,
       run_games (view (fst (run_persist conn now results)))
       = run_games (view conn) ++ added
       /\ forall a, In a added ->
            rg_run_id a = next_id (map run_id (runs (view conn)))
            /\ exists g, In g results /\ candidate_url g <> []
                         /\ rg_Url a = candidate_url g.
Proof.
  rewrite run_persist_loop. cbn [fst snd commit view].
  rewrite loop_new_entries, loop_games, loop_run_games, first_run_is_empty.
  destruct (loop_frame (snd (create_run conn now (List.length results))) now
              (is_empty (games (view conn))) results
              (fst (create_run conn now (List.length results)), [])) as [_ R].
  rewrite R. repeat split.
  eexists. split; [reflexivity|]. intros a Ha.
  apply in_new_associations in Ha. destruct Ha as [E [g [b [Hin Eu]]]].
  apply in_classify in Hin. destruct Hin as [Hg Hne]. split; [exact E|].
  now exists g.
Qed.



(** ** Duplicates in one batch, over the whole run *)

Lemma run_persist_flag conn now results :
  fst (snd (run_persist conn now results)) = is_empty (games (view conn)).
Proof. rewrite run_persist_unfold. cbn [fst snd]. apply first_run_is_empty. Qed.

Lemma classify_app (known : list str) (l1 l2 : list candidate) :
  classify known (l1 ++ l2)
  = classify known l1
    ++ classify (known ++ map candidate_url (fresh known l1)) l2.
Proof.
  revert known. induction l1 as [|g t IH]; intros known.
  - cbn. now rewrite app_nil_r.
  - unfold fresh. cbn [app classify].
    destruct (candidate_url g) as [|c u] eqn:E; [apply IH|].
    destruct (existsb (str_eqb (c :: u)) known); cbn [filter snd map fst app]; f_equal.
    + apply IH.
    + rewrite IH, E, <- app_assoc. reflexivity.
Qed.

Lemma fresh_app (known : list str) (l1 l2 : list candidate) :
  fresh known (l1 ++ l2)
  = fresh known l1 ++ fresh (known ++ map candidate_url (fresh known l1)) l2.
Proof.
  unfold fresh at 1. rewrite classify_app, filter_app, map_app. reflexivity.
Qed.

Lemma links_app (l1 l2 : list candidate) : links (l1 ++ l2) = links l1 ++ links l2.
Proof. unfold links. now rewrite filter_app, map_app. Qed.














(** The batch [gamma], [apple], [gamma] again with a trailing slash, on a
    catalogue that knows [apple] and [beta]: one new row, one new entry,
    three associations, the last one not new. *)
Example duplicate_in_batch_run :
  let end_ := run_persist catalog_ab (lit "t2")
                [gamma; apple; game "Gamma again" "u/g/"] in
  urls (view (fst end_)) = [lit "u/a"; lit "u/b"; lit "u/g"]
  /\ snd end_ = (false, [gamma])
  /\ map recorded (associations 2%nat (view (fst end_)))
     = [(2%nat, Name gamma, lit "u/g", true);
        (2%nat, Name apple, lit "u/a", false);
        (2%nat, Some (lit "Gamma again"), lit "u/g", false)].
Proof. vm_compute. repeat split. Qed.




Lemma classify_all_known (known : list str) (results : list candidate) :
  (forall g, In g results -> candidate_url g <> [] -> In (candidate_url g) known) ->
  fresh known results = [].
Proof.
  unfold fresh. induction results as [|g t IH]; intros H; [reflexivity|].
  cbn [classify].
  assert (Ht : forall g', In g' t -> candidate_url g' <> [] -> In (candidate_url g') known)
    by (intros g' Hg'; apply H; now right).
  destruct (candidate_url g) as [|c u] eqn:E; [now apply IH|].
  assert (K : existsb (str_eqb (c :: u)) known = true).
  { apply existsb_exists. exists (c :: u). split; [|apply str_eqb_refl].
    rewrite <- E. apply H; [now left | rewrite E; discriminate]. }
  rewrite K. cbn [filter snd]. now apply IH.
Qed.

Lemma map_refresh_urls (now : str) (seen_links : list str) (l : list game_row) :
  map g_Url (map (refresh now seen_links) l) = map g_Url l.
Proof.
  rewrite map_map. apply map_ext. intros r. unfold refresh.
  now destruct (existsb _ seen_links).
Qed.

(** A batch that brings no link the catalogue does not hold: no new entry,
    and the same rows but for [last_seen]. *)
Lemma run_persist_known_links conn now results :
  (forall g, In g results -> candidate_url g <> [] ->
             In (candidate_url g) (urls (view conn))) ->
  snd (snd (run_persist conn now results)) = []
  /\ games (view (fst (run_persist conn now results)))
     = map (refresh now (links results)) (games (view conn)).
Proof.
  intros H. destruct (run_persist_effect conn now results) as [N [G _]].
  rewrite N, G, (classify_all_known _ _ H). cbn [map new_rows]. rewrite app_nil_r.
  split; [now destruct (is_empty _) | reflexivity].
Qed.

(** Running the same batch again reports nothing new and adds no row,
    whatever the catalogue and the batch were. *)
Theorem run_persist_again (conn : connection) (now now' : str) (results : list candidate) :
  let conn1 := fst (run_persist conn now results) in
  let again := run_persist conn1 now' results in
  snd (snd again) = []
  /\ urls (view (fst again)) = urls (view conn1)
  /\ List.length (games (view (fst again))) = List.length (games (view conn1)).
Proof.
  cbv zeta.
  destruct (run_persist_known_links (fst (run_persist conn now results)) now' results)
    as [N G].
  { intros g Hg Hne. apply (proj2 (run_persist_urls conn now results)). right.
    split; [assumption|]. now exists g. }
  split; [exact N|]. unfold urls. rewrite G. split.
  - apply map_refresh_urls.
  - apply length_map.
Qed.

(** ** References between the tables *)

Lemma run_persist_referenced conn now results :
  referenced (view conn) -> referenced (view (fst (run_persist conn now results))).
Proof.
  intros H a Ha.
  destruct (run_persist_effect conn now results) as [_ [_ [R [added [A Hadded]]]]].
  pose proof (proj2 (run_persist_urls conn now results)) as U.
  rewrite A in Ha. rewrite R, map_app, in_app_iff. apply in_app_or in Ha.
  destruct Ha as [Ha|Ha].
  - destruct (H a Ha) as [H1 H2]. split; [now left|]. apply U. now left.
  - destruct (Hadded a Ha) as [E [g [Hg [Hne Eu]]]]. split.
    + right. rewrite E. now left.
    + apply U. right. rewrite Eu. split; [assumption|]. now exists g.
Qed.

(** Through any sequence of runs every association names a run that is in
    [runs] and a link that is in [games], although the schema leaves both
    unchecked ([Url] of [run_games] is free text, and SQLite does not
    enforce the foreign key unless asked). *)
Theorem associations_referenced (conn : connection)
    (batches : list (str * list candidate)) :
  referenced (view conn) -> referenced (view (run_all conn batches)).
Proof.
  revert conn. induction batches as [|[now results] rest IH]; intros conn H; [exact H|].
  unfold run_all. cbn [fold_left fst snd].
  fold (run_all (fst (run_persist conn now results)) rest).
  apply IH. now apply run_persist_referenced.
Qed.

Lemma associations_referenced_witness :
  referenced (view (run_all new_connection
                      [(lit "t1", [apple; beta]); (lit "t2", [beta; gamma; gamma])])).
Proof.
  apply (associations_referenced new_connection). intros a [].
Defined.

(* ================================================================== *)
(** * Further properties: the extractor and the scraper *)

Lemma extract_match_found charref_sub st m :
  extract_match charref_sub st m = dedup_step st (found_in_match charref_sub m).
Proof.
  unfold extract_match, found_in_match, dedup_step. destruct st as [seen results].
  destruct (strip (fst m)) as [|c t]; [reflexivity|].
  destruct (clean_name charref_sub (strip (snd m))) as [|d n];
    [destruct (strip _) as [|d n]|]; destruct (rebase (c :: t)); reflexivity.
Qed.

Lemma scrape_anchor_found charref_sub st a :
  scrape_anchor charref_sub st a = dedup_step st (found_in_anchor charref_sub a).
Proof.
  unfold scrape_anchor, found_in_anchor, dedup_step. destruct st as [seen results].
  destruct (clean_name charref_sub _) as [|d n].
  - destruct (or_else (attr_href a) (or_else (attr_data_href a) [])) as [|c t];
      [now destruct (rebase [])|].
    destruct (strip _) as [|d n]; destruct (rebase (c :: t)); reflexivity.
  - destruct (rebase _); reflexivity.
Qed.

Lemma fold_dedup {M : Type} (step : list str * list candidate -> M -> list str * list candidate)
    (found : M -> option (str * str)) (l : list M) st :
  (forall st m, step st m = dedup_step st (found m)) ->
  fold_left step l st = fold_left dedup_step (map found l) st.
Proof.
  intros H. revert st. induction l as [|m l IH]; intros st; [reflexivity|].
  cbn [map fold_left]. rewrite H. apply IH.
Qed.

Section Dedup.

(** What holds of every name and link found. *)
Variable P : str -> str -> Prop.

Lemma dedup_step_ok st c :
  seen_ok P st -> match c with Some (n, h) => P n h | None => True end ->
  seen_ok P (dedup_step st c) /\ exists extra, snd (dedup_step st c) = snd st ++ extra.
Proof.
  intros [S [ND F]] Hc. destruct c as [[n h]|]; cbn [dedup_step].
  2:{ split; [exact (conj S (conj ND F)) | exists []; now rewrite app_nil_r]. }
  destruct (existsb (str_eqb h) (fst st)) eqn:E.
  { split; [exact (conj S (conj ND F)) | exists []; now rewrite app_nil_r]. }
  split; [|now eexists].
  assert (Hh : ~ In h (fst st)).
  { intros Hin. assert (T : existsb (str_eqb h) (fst st) = true).
    { apply existsb_exists. exists h. split; [assumption | apply str_eqb_refl]. }
    congruence. }
  unfold seen_ok. cbn [fst snd]. rewrite map_app. cbn [map Url]. repeat split.
  - intros [<-|Hin]; apply in_or_app; [right; now left | left; now apply S].
  - intros Hin. apply in_app_or in Hin. destruct Hin as [Hin|[Hin|[]]].
    + right. now apply S.
    + left. congruence.
  - apply NoDup_app; [assumption | repeat constructor; intros [] |].
    intros x Hx [Hy|[]]. subst x. apply Hh. now apply S.
  - apply Forall_app. split; [assumption|]. repeat constructor. now exists n, h.
Qed.

Lemma fold_dedup_ok l st :
  seen_ok P st -> all_found P l ->
  seen_ok P (fold_left dedup_step l st)
  /\ exists extra, snd (fold_left dedup_step l st) = snd st ++ extra.
Proof.
  revert st. induction l as [|c l IH]; intros st S F.
  - split; [assumption | exists []; now rewrite app_nil_r].
  - inversion F as [|? ? Hc Hl]. subst. cbn [fold_left].
    destruct (dedup_step_ok st c S Hc) as [S1 [e1 E1]].
    destruct (IH _ S1 Hl) as [S2 [e2 E2]]. split; [assumption|].
    exists (e1 ++ e2). now rewrite E2, E1, app_assoc.
Qed.

End Dedup.

Lemma seen_ok_start (P : str -> str -> Prop) : seen_ok P ([], []).
Proof. repeat split; try constructor; intros []. Qed.

Lemma rebase_normalized (raw : str) : rebase raw <> [] -> normalized (rebase raw).
Proof.
  intros H. split; [assumption|]. unfold rebase. apply rstrip_by_idem.
Qed.

Lemma found_in_match_ok charref_sub (ms : list (str * str)) :
  all_found (fun n h => n <> [] /\ normalized h) (map (found_in_match charref_sub) ms).
Proof.
  apply Forall_forall. intros c Hc. apply in_map_iff in Hc. destruct Hc as [m [<- _]].
  unfold found_in_match. destruct (strip (fst m)) as [|c t]; [exact I|].
  set (name := match clean_name _ _ with [] => _ | _ :: _ => _ end).
  destruct name as [|d n]; [exact I|].
  destruct (rebase (c :: t)) as [|e h] eqn:E; [exact I|].
  split; [discriminate|]. rewrite <- E. apply rebase_normalized. rewrite E. discriminate.
Qed.

Lemma found_in_anchor_ok charref_sub (anchors : list anchor) :
  all_found (fun _ h => normalized h) (map (found_in_anchor charref_sub) anchors).
Proof.
  apply Forall_forall. intros c Hc. apply in_map_iff in Hc. destruct Hc as [a [<- _]].
  unfold found_in_anchor.
  set (name := match clean_name _ _ with [] => _ | _ :: _ => _ end).
  destruct name as [|d n]; [exact I|].
  destruct (rebase _) as [|e h] eqn:E; [exact I|].
  rewrite <- E. apply rebase_normalized. rewrite E. discriminate.
Qed.

(** What [extract_games_from_html] returns: every record has a name that
    is not empty and a link that is not empty and has no trailing slash,
    and no two records have the same link. *)
Theorem extracted_records (charref_sub : str -> str) (matches : list (str * str)) :
  Forall well_formed (extract_games_from_html charref_sub matches)
  /\ NoDup (map Url (extract_games_from_html charref_sub matches)).
Proof.
  unfold extract_games_from_html.
  rewrite (fold_dedup _ _ _ _ (extract_match_found charref_sub)).
  destruct (fold_dedup_ok _ _ _ (seen_ok_start _) (found_in_match_ok charref_sub matches))
    as [[_ [ND F]] _].
  split; [|exact ND]. apply (Forall_impl _ (P := made (fun n h => n <> [] /\ normalized h)));
    [|exact F].
  intros g [n [h [Hn [Hh [Nn Nh]]]]]. split; [now exists n | now exists h].
Qed.

(** Reading more of the page changes none of the records read so far: the
    records of the matches up to some place are the first records of the
    whole page, so a link keeps the name of its first anchor. *)
Theorem extracted_prefix (charref_sub : str -> str) (matches more : list (str * str)) :
  exists extra,
    extract_games_from_html charref_sub (matches ++ more)
    = extract_games_from_html charref_sub matches ++ extra.
Proof.
  unfold extract_games_from_html.
  rewrite !(fold_dedup _ _ _ _ (extract_match_found charref_sub)).
  rewrite map_app, fold_left_app.
  destruct (fold_dedup_ok _ _ _ (seen_ok_start _) (found_in_match_ok charref_sub matches))
    as [S _].
  destruct (fold_dedup_ok _ _ _ S (found_in_match_ok charref_sub more)) as [_ E].
  exact E.
Qed.

Lemma dedup_step_kept st c (h : str) :
  In h (fst st) -> In h (fst (dedup_step st c)).
Proof.
  intros H. destruct c as [[n x]|]; cbn [dedup_step]; [|assumption].
  destruct (existsb (str_eqb x) (fst st)); [assumption | now right].
Qed.

Lemma dedup_seen_kept l st (h : str) :
  In h (fst st) -> In h (fst (fold_left dedup_step l st)).
Proof.
  revert st. induction l as [|c l IH]; intros st H; [assumption|].
  cbn [fold_left]. apply IH. now apply dedup_step_kept.
Qed.

(** A link found is a link seen when the loop ends. *)
Lemma dedup_found_seen l st (n h : str) :
  In (Some (n, h)) l -> In h (fst (fold_left dedup_step l st)).
Proof.
  revert st. induction l as [|c l IH]; intros st H; [destruct H|].
  destruct H as [->|H]; cbn [fold_left].
  - apply dedup_seen_kept. cbn [dedup_step].
    destruct (existsb (str_eqb h) (fst st)) eqn:E; [|now left].
    apply existsb_exists in E. destruct E as [x [Hx E]].
    apply str_eqb_true in E. now subst x.
  - now apply IH.
Qed.

Lemma found_in_match_rebased charref_sub (ms : list (str * str)) :
  all_found (fun _ h => exists m, In m ms /\ h = rebase (strip (fst m)))
    (map (found_in_match charref_sub) ms).
Proof.
  apply Forall_forall. intros c Hc. apply in_map_iff in Hc. destruct Hc as [m [<- Hm]].
  unfold found_in_match. destruct (strip (fst m)) as [|c t] eqn:S; [exact I|].
  set (name := match clean_name _ _ with [] => _ | _ :: _ => _ end).
  destruct name as [|d n]; [exact I|].
  destruct (rebase (c :: t)) as [|e h] eqn:E; [exact I|].
  exists m. split; [assumption|]. now rewrite S, E.
Qed.

(** What is found in a match whose link does not begin with a slash. *)
Lemma found_in_match_absolute charref_sub (href text : str) :
  (forall rest, strip href <> slash :: rest) ->
  rstrip_by is_slash (strip href) <> [] ->
  clean_name charref_sub (strip text) <> [] ->
  found_in_match charref_sub (href, text)
  = Some (clean_name charref_sub (strip text), rstrip_by is_slash (strip href)).
Proof.
  intros A Hl Hn. unfold found_in_match. cbn [fst snd].
  destruct (strip href) as [|c t] eqn:S; [now contradict Hl|].
  assert (Hc : c <> slash) by (intros ->; now apply (A t)).
  rewrite (rebase_absolute c t Hc).
  destruct (clean_name charref_sub (strip text)) as [|d n]; [now contradict Hn|].
  destruct (rstrip_by is_slash (c :: t)); [now contradict Hl | reflexivity].
Qed.

(** The links [extract_games_from_html] returns come from the matches, each
    the stripped [href] of a match, rebased when it begins with a slash,
    without its trailing slashes. And a link that does not begin with a
    slash is kept: a match whose [href], stripped of the white space
    around it, does not begin with a slash and is not made of slashes
    only, and whose text gives a name, has its link among the records
    returned, as the stripped [href] without its trailing slashes. *)
Theorem absolute_link_kept (charref_sub : str -> str) (matches : list (str * str)) :
  (forall u, In (Some u) (map Url (extract_games_from_html charref_sub matches)) ->
     exists href text, In (href, text) matches /\ u = rebase (strip href))
  /\ forall href text,
       In (href, text) matches ->
       (forall rest, strip href <> slash :: rest) ->
       rstrip_by is_slash (strip href) <> [] ->
       clean_name charref_sub (strip text) <> [] ->
       In (Some (rstrip_by is_slash (strip href)))
          (map Url (extract_games_from_html charref_sub matches)).
Proof.
  unfold extract_games_from_html.
  rewrite (fold_dedup _ _ _ _ (extract_match_found charref_sub)).
  destruct (fold_dedup_ok _ _ _ (seen_ok_start _) (found_in_match_rebased charref_sub matches))
    as [[S [_ F]] _].
  split.
  - intros u Hu. apply in_map_iff in Hu. destruct Hu as [g [Eg Hg]].
    rewrite Forall_forall in F. destruct (F g Hg) as [n [h [_ [Eh [[href text] [Hm ->]]]]]].
    exists href, text. split; [assumption|]. cbn [fst] in Eh. congruence.
  - intros href text Hm A Hl Hn. apply S.
    apply (dedup_found_seen _ _ (clean_name charref_sub (strip text))).
    rewrite <- (found_in_match_absolute charref_sub href text A Hl Hn).
    now apply in_map.
Qed.

Lemma absolute_link_kept_witness :
  In (Some (lit "https://steamrip.com/game3-free-download"))
     (map Url (extract_games_from_html (fun s => s)
                 [(lit "/game1-free-download", lit "Game One");
                  (lit " https://steamrip.com/game3-free-download/ ", lit "Game Three (2021)")])).
Proof.
  apply (proj2 (absolute_link_kept (fun s => s)
                  [(lit "/game1-free-download", lit "Game One");
                   (lit " https://steamrip.com/game3-free-download/ ",
                    lit "Game Three (2021)")])
           (lit " https://steamrip.com/game3-free-download/ ") (lit "Game Three (2021)")).
  - right. now left.
  - intros rest. vm_compute. discriminate.
  - vm_compute. discriminate.
  - vm_compute. discriminate.
Defined.

(** What [scrape] returns: every record has a name and a link that is not
    empty and has no trailing slash, and no two records have the same
    link. *)
Theorem scraped_records (charref_sub : str -> str) (anchors : list anchor) :
  Forall linked (scrape charref_sub anchors)
  /\ NoDup (map Url (scrape charref_sub anchors)).
Proof.
  unfold scrape.
  rewrite (fold_dedup _ _ _ _ (scrape_anchor_found charref_sub)).
  destruct (fold_dedup_ok _ _ _ (seen_ok_start _) (found_in_anchor_ok charref_sub anchors))
    as [[_ [ND F]] _].
  split; [|exact ND]. apply (Forall_impl _ (P := made (fun _ h => normalized h)));
    [|exact F].
  intros g [n [h [Hn [Hh Nh]]]]. split; [now exists n | now exists h].
Qed.

(** ** From the scraper to the store *)

Lemma linked_url (g : candidate) :
  linked g -> candidate_url g <> [] /\ Url g = Some (candidate_url g) /\ entry_of g = g.
Proof.
  intros [[n Hn] [u [Hu [Ne Nr]]]]. unfold entry_of, candidate_url. rewrite Hu, Nr.
  repeat split; [assumption|]. destruct g as [gn gu]. cbn in *. now subst.
Qed.

Lemma fresh_all (known : list str) (results : list candidate) :
  Forall linked results -> NoDup (map Url results) ->
  (forall g, In g results -> ~ In (candidate_url g) known) ->
  fresh known results = results.
Proof.
  unfold fresh. revert known. induction results as [|g t IH]; intros known F ND H;
    [reflexivity|].
  inversion F as [|? ? Lg Lt]. inversion ND as [|? ? Hg NDt]. subst.
  destruct (linked_url g Lg) as [Hne [Hu _]].
  cbn [classify]. destruct (candidate_url g) as [|c u] eqn:E; [congruence|].
  assert (K : existsb (str_eqb (c :: u)) known = false).
  { destruct (existsb (str_eqb (c :: u)) known) eqn:K; [|reflexivity]. exfalso.
    apply existsb_exists in K. destruct K as [x [Hx Ex]]. apply str_eqb_true in Ex.
    subst x. apply (H g); [now left | now rewrite E]. }
  rewrite K. cbn [filter snd map fst]. f_equal. apply IH; try assumption.
  intros g' Hg' Hin. apply in_app_or in Hin. destruct Hin as [Hin|[Hin|[]]].
  - apply (H g'); [now right | assumption].
  - apply Hg. rewrite Hu.
    destruct (linked_url g' (proj1 (Forall_forall _ _) Lt g' Hg')) as [_ [Hu' _]].
    rewrite Hin, <- Hu'. now apply in_map.
Qed.

Lemma refresh_none (now : str) (seen_links : list str) (l : list game_row) :
  (forall u, In u seen_links -> ~ In u (map g_Url l)) ->
  map (refresh now seen_links) l = l.
Proof.
  intros H. rewrite <- (map_id l) at 2. apply map_ext_in. intros r Hr. unfold refresh.
  destruct (existsb (str_eqb (g_Url r)) seen_links) eqn:E; [|reflexivity]. exfalso.
  apply existsb_exists in E. destruct E as [u [Hu Eu]]. apply str_eqb_true in Eu.
  subst u. apply (H _ Hu). now apply in_map.
Qed.

Lemma links_In (results : list candidate) (u : str) :
  In u (links results) -> exists g, In g results /\ candidate_url g = u.
Proof.
  unfold links. intros H. apply in_map_iff in H. destruct H as [g [E Hg]].
  apply filter_In in Hg. exists g. tauto.
Qed.

(** A batch of records with a name and a trimmed link each, no link twice,
    none of them in the catalogue: the run appends one row per record, and
    reports the records themselves unless the catalogue was empty. *)
Lemma run_persist_unknown_batch conn now results :
  Forall linked results -> NoDup (map Url results) ->
  (forall g, In g results -> ~ In (candidate_url g) (urls (view conn))) ->
  snd (run_persist conn now results)
  = (is_empty (games (view conn)),
     if is_empty (games (view conn)) then [] else results)
  /\ games (view (fst (run_persist conn now results)))
     = games (view conn)
       ++ new_rows (list_max (map game_id (games (view conn)))) now results.
Proof.
  intros F ND H. destruct (run_persist_effect conn now results) as [N [G _]].
  rewrite G, (fresh_all _ _ F ND H). split.
  - rewrite (surjective_pairing (snd (run_persist conn now results))), N.
    rewrite run_persist_unfold. cbn [snd fst]. rewrite first_run_is_empty.
    rewrite (fresh_all _ _ F ND H). f_equal. destruct (is_empty _); [reflexivity|].
    rewrite <- (map_id results) at 2. apply map_ext_in. intros g Hg.
    apply linked_url. now apply (proj1 (Forall_forall _ _) F).
  - f_equal. apply refresh_none. intros u Hu Hin. apply links_In in Hu.
    destruct Hu as [g [Hg <-]]. now apply (H g).
Qed.

(** What [scrape] returns goes into the store as it is: when the catalogue
    holds none of the links, [run_persist] appends one row per record, in
    the order of the page, with the name and the link of the record, and,
    unless the catalogue was empty, returns the very records as new. *)
Theorem scraped_batch_persisted (charref_sub : str -> str) (anchors : list anchor)
    (conn : connection) (now : str) :
  let results := scrape charref_sub anchors in
  (forall g, In g results -> ~ In (candidate_url g) (urls (view conn))) ->
  snd (run_persist conn now results)
  = (is_empty (games (view conn)),
     if is_empty (games (view conn)) then [] else results)
  /\ games (view (fst (run_persist conn now results)))
     = games (view conn)
       ++ new_rows (list_max (map game_id (games (view conn)))) now results.
Proof.
  intros results H. destruct (fold_dedup_ok _ _ _ (seen_ok_start _)
                                (found_in_anchor_ok charref_sub anchors)) as [[_ [ND F]] _].
  apply run_persist_unknown_batch; try assumption.
  - unfold results, scrape.
    rewrite (fold_dedup _ _ _ _ (scrape_anchor_found charref_sub)).
    apply (Forall_impl _ (P := made (fun _ h => normalized h))); [|exact F].
    intros g [n [h [Hn [Hh Nh]]]]. split; [now exists n | now exists h].
  - unfold results, scrape.
    now rewrite (fold_dedup _ _ _ _ (scrape_anchor_found charref_sub)).
Qed.

Lemma scraped_batch_persisted_witness :
  scrape (fun s => s) sample_anchors
  = [game "Gamma" "https://steamrip.com/gamma-free-download";
     game "delta" "https://steamrip.comdelta-free-download"]
  /\ (snd (run_persist catalog_ab (lit "t2") (scrape (fun s => s) sample_anchors))
      = (is_empty (games (view catalog_ab)),
         if is_empty (games (view catalog_ab)) then []
         else scrape (fun s => s) sample_anchors)
      /\ games (view (fst (run_persist catalog_ab (lit "t2")
                             (scrape (fun s => s) sample_anchors))))
         = games (view catalog_ab)
           ++ new_rows (list_max (map game_id (games (view catalog_ab)))) (lit "t2")
                (scrape (fun s => s) sample_anchors)).
Proof.
  split; [reflexivity|].
  apply (scraped_batch_persisted (fun s => s) sample_anchors catalog_ab (lit "t2")).
  vm_compute. intros g [<-|[<-|[]]] [H|[H|[]]]; discriminate.
Defined.

(* ================================================================== *)
(** * Further properties: the name normalizer *)

Lemma strip_by_fixed_ends (p : N -> bool) (s : str) :
  strip_by p s = s ->
  (forall c t, s = c :: t -> p c = false)
  /\ (s <> [] -> p (last s 0) = false).
Proof.
  intros H. destruct (strip_by_cases p s) as [E|[c [m [d [[E|E] [Hc Hd]]]]]];
    rewrite H in E; subst s.
  - split; [discriminate | congruence].
  - split; [intros c' t E; now injection E as <- _ | intros _; exact Hc].
  - split; [intros c' t E; now injection E as <- _|]. intros _.
    change (c :: m ++ [d]) with ((c :: m) ++ [d]). now rewrite last_last.
Qed.

(** The name [clean_name] gives for a text without ['&'] is trimmed: it
    neither begins nor ends with white space or with one of the characters
    of [' -–+,:'], and its only white space is single spaces (U+0020), no
    two in a row. *)
Theorem clean_name_trimmed (charref_sub : str -> str) (x : str) :
  ~ In ampersand x ->
  let name := clean_name charref_sub x in
  spaced name
  /\ (forall c t, name = c :: t ->
        isspace c = false /\ one_of stray_punctuation c = false)
  /\ (name <> [] ->
        isspace (last name 0) = false
        /\ one_of stray_punctuation (last name 0) = false).
Proof.
  intros NA. cbv zeta. rewrite clean_name_text.
  destruct x as [|c x]; [repeat split; discriminate || congruence|].
  rewrite unescape_plain by (apply clean_text_no_char; [discriminate | exact NA]).
  destruct (clean_text_tidy (c :: x)) as [S [_ P]].
  destruct (strip_by_fixed_ends _ _ S) as [S1 S2].
  destruct (strip_by_fixed_ends _ _ P) as [P1 P2].
  split; [|split].
  - unfold clean_text. apply spaced_strip_by, collapse_from_spaced.
  - intros d t E. split; [now apply (S1 d t) | now apply (P1 d t)].
  - intros Hne. split; [now apply S2 | now apply P2].
Qed.

Lemma clean_name_trimmed_witness :
  clean_name (fun s => s) (lit "  - Some   Game (v1.2) Free Download now! ") = lit "Some Game"
  /\ let name := clean_name (fun s => s) (lit "  - Some   Game (v1.2) Free Download now! ") in
     spaced name
     /\ (forall c t, name = c :: t ->
           isspace c = false /\ one_of stray_punctuation c = false)
     /\ (name <> [] ->
           isspace (last name 0) = false
           /\ one_of stray_punctuation (last name 0) = false).
Proof.
  split; [reflexivity|].
  apply (clean_name_trimmed (fun s => s)
           (lit "  - Some   Game (v1.2) Free Download now! ")).
  vm_compute. intuition discriminate.
Defined.

Lemma nofd_suffix (s a b : str) : nofd s -> s = a ++ b -> fd_head b = false.
Proof.
  intros H E. subst s. apply nofd_app in H. destruct H as [_ H].
  destruct b; apply H.
Qed.

(** The name [clean_name] gives for a text of one line without ['&'] holds
    the phrase nowhere: at no place of it does the pattern
    [\s*free\s+download] match, in any case of the letters. *)
Theorem clean_name_without_phrase (charref_sub : str -> str) (x : str) :
  ~ In line_feed x -> ~ In ampersand x ->
  forall a b, clean_name charref_sub x = a ++ b -> fd_head b = false.
Proof.
  intros NL NA a b. rewrite clean_name_text.
  destruct x as [|c x].
  - intros E. symmetry in E. apply app_eq_nil in E. destruct E as [_ ->]. reflexivity.
  - rewrite unescape_plain by (apply clean_text_no_char; [discriminate | exact NA]).
    apply nofd_suffix. now apply clean_text_nofd.
Qed.

Lemma clean_name_without_phrase_witness :
  clean_name (fun s => s) (lit "Free  Download Manager FREE DOWNLOAD") = []
  /\ forall a b,
       clean_name (fun s => s) (lit "Freedom free downloads (2020)") = a ++ b ->
       fd_head b = false.
Proof.
  split; [reflexivity|].
  apply (clean_name_without_phrase (fun s => s) (lit "Freedom free downloads (2020)"));
    vm_compute; intuition discriminate.
Defined.

(* ================================================================== *)
(** * Further properties: the full catalogue file *)

Lemma str_ltb_irrefl (a : str) : str_ltb a a = false.
Proof.
  induction a as [|x a IH]; [reflexivity|]. cbn.
  now rewrite N.ltb_irrefl, N.eqb_refl, IH.
Qed.

Lemma str_ltb_asym (a b : str) : str_ltb a b = true -> str_ltb b a = false.
Proof.
  revert b. induction a as [|x a IH]; intros [|y b]; cbn; try congruence.
  intros H. apply orb_prop in H. destruct H as [H|H].
  - apply N.ltb_lt in H.
    assert (E1 : (y <? x) = false) by (apply N.ltb_ge; lia).
    assert (E2 : (y =? x) = false) by (apply N.eqb_neq; lia).
    now rewrite E1, E2.
  - apply andb_prop in H. destruct H as [E H]. apply N.eqb_eq in E. subst y.
    now rewrite N.ltb_irrefl, N.eqb_refl, (IH _ H).
Qed.

Section Sorting.

Context {A : Type} (key : A -> str).

Lemma insert_sorted_perm (x : A) (l : list A) :
  Permutation (x :: l) (insert_sorted key x l).
Proof.
  induction l as [|y l IH]; [reflexivity|]. cbn.
  destruct (str_ltb (key y) (key x)); [|reflexivity].
  rewrite perm_swap. now constructor.
Qed.

Lemma insert_sorted_hd (x y : A) (l : list A) :
  (key_le key) y x -> HdRel (key_le key) y l -> HdRel (key_le key) y (insert_sorted key x l).
Proof.
  intros Hx H. destruct l as [|z l]; cbn; [now constructor|].
  destruct (str_ltb (key z) (key x)); constructor; [now inversion H | assumption].
Qed.

Lemma insert_sorted_sorted (x : A) (l : list A) :
  Sorted (key_le key) l -> Sorted (key_le key) (insert_sorted key x l).
Proof.
  induction l as [|y l IH]; intros S; cbn; [repeat constructor|].
  inversion S as [|? ? Sl Hd]. subst.
  destruct (str_ltb (key y) (key x)) eqn:E.
  - constructor; [now apply IH|]. apply insert_sorted_hd; [|assumption].
    unfold key_le. now apply str_ltb_asym.
  - constructor; [assumption|]. constructor. exact E.
Qed.

Lemma insert_sorted_stable (k : str) (x : A) (l : list A) :
  filter (fun g => str_eqb (key g) k) (insert_sorted key x l)
  = filter (fun g => str_eqb (key g) k) (x :: l).
Proof.
  induction l as [|y l IH]; [reflexivity|]. cbn [insert_sorted].
  destruct (str_ltb (key y) (key x)) eqn:E; [|reflexivity].
  cbn [filter] in *. rewrite IH.
  destruct (str_eqb (key x) k) eqn:Ex; [|reflexivity].
  destruct (str_eqb (key y) k) eqn:Ey; [|reflexivity].
  apply str_eqb_true in Ex, Ey. rewrite Ex, Ey, str_ltb_irrefl in E. discriminate.
Qed.

Lemma sorted_spec (l : list A) :
  Permutation l (sorted key l)
  /\ Sorted (key_le key) (sorted key l)
  /\ forall k, filter (fun g => str_eqb (key g) k) (sorted key l)
               = filter (fun g => str_eqb (key g) k) l.
Proof.
  induction l as [|x l [P [S T]]]; [repeat split; constructor|].
  cbn [sorted fold_right]. fold (sorted key l). split; [|split].
  - rewrite <- insert_sorted_perm. now constructor.
  - now apply insert_sorted_sorted.
  - intros k. rewrite insert_sorted_stable. cbn [filter]. now rewrite T.
Qed.

End Sorting.

(** What [save_all_games_from_db] writes: the games of the table, each
    once (a rearrangement of the rows read); in an order in which no game
    stands before one with a smaller lower-cased name; and, among games
    whose lower-cased names are equal, in the order of the table. *)
Theorem snapshot_sorted (str_lower : str -> str) (conn : connection) :
  let written := save_all_games_from_db str_lower conn in
  Permutation (listed (view conn)) written
  /\ Sorted (key_le (name_key str_lower)) written
  /\ forall k, filter (fun g => str_eqb (name_key str_lower g) k) written
               = filter (fun g => str_eqb (name_key str_lower g) k) (listed (view conn)).
Proof.
  cbv zeta. unfold save_all_games_from_db. fold (listed (view conn)).
  apply sorted_spec.
Qed.

(** With the identity for [str.lower]: upper case sorts before lower case,
    and equal names keep the order of the table. *)
Example snapshot_of_three :
  save_all_games_from_db (fun s => s)
    (fst (run_persist new_connection (lit "t1")
            [game "beta" "u/1"; game "Zebra" "u/2"; game "beta" "u/3"; game "Alpha" "u/4"]))
  = [game "Alpha" "u/4"; game "Zebra" "u/2"; game "beta" "u/1"; game "beta" "u/3"].
Proof. reflexivity. Qed.

(* ================================================================== *)
(** * Further properties: the historical feed *)

Lemma in_feed_app (a b : list candidate) (g : candidate) :
  in_feed (a ++ b) g = in_feed a g || in_feed b g.
Proof. unfold in_feed. apply existsb_app. Qed.

Lemma in_feed_self (l : list candidate) (g : candidate) :
  In g l -> Url g <> None -> in_feed l g = true.
Proof.
  intros Hin K. unfold in_feed. apply existsb_exists. exists g. split; [assumption|].
  destruct (Url g); [apply str_eqb_refl | congruence].
Qed.

Lemma in_feed_link (feed : list candidate) (g e : candidate) :
  In e feed -> Url e = Url g -> Url g <> None -> in_feed feed g = true.
Proof.
  intros Hin E K. unfold in_feed. apply existsb_exists. exists e. split; [assumption|].
  rewrite E. destruct (Url g); [apply str_eqb_refl | congruence].
Qed.

Lemma truly_new_In (feed new_entries : list candidate) (g : candidate) :
  In g (truly_new feed new_entries) <-> In g new_entries /\ in_feed feed g = false.
Proof.
  unfold truly_new. rewrite filter_In. now destruct (in_feed feed g).
Qed.

Lemma filter_none {A : Type} (p : A -> bool) (l : list A) :
  (forall x, In x l -> p x = false) -> filter p l = [].
Proof.
  induction l as [|x l IH]; [reflexivity|]. intros H. cbn [filter].
  rewrite (H x) by now left. apply IH. intros y Hy. apply H. now right.
Qed.

(** Keeping some of a list of games with pairwise distinct links leaves the
    links pairwise distinct. *)
Lemma selection_distinct {game key : Type} (link : game -> key)
    (keep : game -> bool) (games : list game)
    (distinct : NoDup (map link games)) :
  NoDup (map link (filter keep games)).
Proof.
  induction games as [|g games IH]; cbn [map filter] in *; [constructor|].
  apply NoDup_cons_iff in distinct. destruct distinct as [Hg Hrest].
  destruct (keep g); [|now apply IH].
  cbn [map]. constructor; [|now apply IH]. intros Hin. apply Hg.
  apply in_map_iff in Hin. destruct Hin as [y [E Hy]]. apply filter_In in Hy.
  rewrite <- E. apply in_map. tauto.
Qed.

(** What the feed file holds after [save_new_games_file], for games with
    their key. *)
Lemma save_new_games_file_feed (new_entries : list candidate) (file : feed_file)
    (feed : list candidate) :
  keyed new_entries -> load_json_games file = Some (Games feed) -> keyed feed ->
  exists file',
    save_new_games_file new_entries file = Some file'
    /\ (file' = file \/ file' = Holds (truly_new feed new_entries ++ feed))
    /\ load_json_games file' = Some (Games (truly_new feed new_entries ++ feed)).
Proof.
  intros Kn L Kf. rewrite (save_new_games_file_keyed _ _ _ Kn L Kf).
  destruct (truly_new feed new_entries) as [|g l] eqn:E.
  - exists file. repeat split; [now left | exact L].
  - eexists. split; [reflexivity|]. split; [now right | reflexivity].
Qed.

Lemma merged_feed_ok (feed new_entries : list candidate) :
  keyed new_entries -> keyed feed ->
  NoDup (map Url new_entries) -> NoDup (map Url feed) ->
  keyed (truly_new feed new_entries ++ feed)
  /\ NoDup (map Url (truly_new feed new_entries ++ feed))
  /\ truly_new (truly_new feed new_entries ++ feed) new_entries = [].
Proof.
  intros Kn Kf Nn Nf. split; [|split].
  - intros g Hg. apply in_app_or in Hg. destruct Hg as [Hg|Hg]; [|now apply Kf].
    apply truly_new_In in Hg. now apply Kn.
  - rewrite map_app. apply NoDup_app; [now apply selection_distinct | assumption |].
    intros x Hx Hy. apply in_map_iff in Hx, Hy.
    destruct Hx as [g [Eg Hg]]. destruct Hy as [e [Ee He]].
    apply truly_new_In in Hg. destruct Hg as [Hg Hf].
    rewrite (in_feed_link feed g e He) in Hf; [discriminate | congruence | now apply Kn].
  - unfold truly_new at 1. apply filter_none. intros g Hg. rewrite in_feed_app.
    destruct (in_feed feed g) eqn:E; [now rewrite orb_true_r|].
    rewrite in_feed_self; [reflexivity | | now apply Kn].
    apply truly_new_In. now split.
Qed.

(** Writing the same new entries a second time changes nothing: the file
    [save_new_games_file] left is the file it leaves again. *)
Theorem feed_merge_idempotent (new_entries : list candidate) (file file' : feed_file)
    (feed : list candidate) :
  keyed new_entries -> load_json_games file = Some (Games feed) -> keyed feed ->
  save_new_games_file new_entries file = Some file' ->
  save_new_games_file new_entries file' = Some file'.
Proof.
  intros Kn L Kf H. rewrite (save_new_games_file_keyed _ _ _ Kn L Kf) in H.
  injection H as <-.
  destruct (truly_new feed new_entries) as [|g l] eqn:E.
  - rewrite (save_new_games_file_keyed _ _ _ Kn L Kf), E. reflexivity.
  - rewrite <- E.
    assert (K' : keyed (truly_new feed new_entries ++ feed)).
    { intros x Hx. apply in_app_or in Hx. destruct Hx as [Hx|Hx]; [|now apply Kf].
      apply truly_new_In in Hx. now apply Kn. }
    rewrite (save_new_games_file_keyed new_entries
               (Holds (truly_new feed new_entries ++ feed))
               (truly_new feed new_entries ++ feed) Kn eq_refl K').
    replace (truly_new (truly_new feed new_entries ++ feed) new_entries)
      with (@nil candidate); [reflexivity|].
    symmetry. unfold truly_new at 1. apply filter_none. intros x Hx. rewrite in_feed_app.
    destruct (in_feed feed x) eqn:Ex; [now rewrite orb_true_r|].
    rewrite in_feed_self; [reflexivity | | now apply Kn].
    apply truly_new_In. now split.
Qed.

Lemma feed_merge_idempotent_witness :
  save_new_games_file [gamma; beta] (Holds [beta; apple]) = Some (Holds [gamma; beta; apple])
  /\ save_new_games_file [gamma; beta] (Holds [gamma; beta; apple])
     = Some (Holds [gamma; beta; apple]).
Proof.
  split; [reflexivity|].
  apply (feed_merge_idempotent [gamma; beta] (Holds [beta; apple]) _ [beta; apple]).
  - intros g [H|[H|[]]]; subst g; discriminate.
  - reflexivity.
  - intros g [H|[H|[]]]; subst g; discriminate.
  - reflexivity.
Defined.

(** The feed never gets a link twice: when the new entries have distinct
    links and so has the feed, [save_new_games_file] leaves a file that
    holds a feed with distinct links, and every game in it is a new entry
    or was in the feed. *)
Theorem feed_links_distinct (new_entries : list candidate) (file file' : feed_file)
    (feed : list candidate) :
  keyed new_entries -> load_json_games file = Some (Games feed) -> keyed feed ->
  NoDup (map Url new_entries) -> NoDup (map Url feed) ->
  save_new_games_file new_entries file = Some file' ->
  exists feed',
    load_json_games file' = Some (Games feed')
    /\ NoDup (map Url feed')
    /\ forall g, In g feed' -> In g new_entries \/ In g feed.
Proof.
  intros Kn L Kf Nn Nf H.
  destruct (save_new_games_file_feed _ _ _ Kn L Kf) as [f [E [_ L']]].
  rewrite E in H. injection H as <-.
  exists (truly_new feed new_entries ++ feed). split; [exact L'|].
  destruct (merged_feed_ok _ _ Kn Kf Nn Nf) as [_ [ND _]]. split; [exact ND|].
  intros g Hg. apply in_app_or in Hg. destruct Hg as [Hg|Hg]; [left | now right].
  now apply truly_new_In in Hg.
Qed.

Lemma feed_links_distinct_witness :
  exists feed',
    load_json_games (Holds [gamma; beta; apple]) = Some (Games feed')
    /\ NoDup (map Url feed')
    /\ forall g, In g feed' -> In g [gamma; beta] \/ In g [beta; apple].
Proof.
  apply (feed_links_distinct [gamma; beta] (Holds [beta; apple]) _ [beta; apple]).
  - intros g [H|[H|[]]]; subst g; discriminate.
  - reflexivity.
  - intros g [H|[H|[]]]; subst g; discriminate.
  - repeat constructor; cbn; intuition discriminate.
  - repeat constructor; cbn; intuition discriminate.
  - reflexivity.
Defined.

(* ================================================================== *)
(** * Further properties: [main], the store and the two files *)

Lemma run_persist_new_entries_ok conn now results :
  new_entries_ok (fst (run_persist conn now results), snd (snd (run_persist conn now results))).
Proof.
  rewrite run_persist_unfold. cbn [fst snd].
  set (st := fold_left _ _ _).
  assert (H : new_entries_ok st)
    by (apply loop_new_entries_ok; split; [constructor | intros e []]).
  destruct st as [c ne]. exact H.
Qed.

Lemma new_entries_keyed (st : connection * list candidate) :
  new_entries_ok st -> keyed (snd st).
Proof.
  intros [_ H] g Hg. destruct (H g Hg) as [u [E _]]. congruence.
Qed.

Lemma listed_refresh (now : str) (seen_links : list str) (l : list game_row) :
  map (fun r => {| Name := g_Name r; Url := Some (g_Url r) |}) (map (refresh now seen_links) l)
  = map (fun r => {| Name := g_Name r; Url := Some (g_Url r) |}) l.
Proof.
  rewrite map_map. apply map_ext. intros r. unfold refresh.
  now destruct (existsb _ seen_links).
Qed.

Lemma refresh_nothing (now : str) (l : list game_row) : map (refresh now []) l = l.
Proof. rewrite <- (map_id l) at 2. now apply map_ext. Qed.

Lemma run_persist_urls_kept conn now results u :
  In u (urls (view conn)) -> In u (urls (view (fst (run_persist conn now results)))).
Proof. intros H. apply (proj2 (run_persist_urls conn now results)). now left. Qed.

Section Main.

Variable str_lower : str -> str.

Lemma feed_ok_kept conn conn' files :
  (forall u, In u (urls (view conn)) -> In u (urls (view conn'))) ->
  feed_ok conn files -> feed_ok conn' files.
Proof.
  intros M [C [feed [Ld [K [ND L]]]]]. split; [assumption|].
  exists feed. repeat split; try assumption.
  intros g Hg. destruct (L g Hg) as [u [E Hu]]. exists u. split; [assumption | now apply M].
Qed.

(** One run of [main] keeps the two files in step with the store. *)
Lemma main_keeps results now conn files :
  in_sync str_lower conn files -> feed_ok conn files ->
  snd (main str_lower results now conn files) = true
  /\ in_sync str_lower (fst (fst (main str_lower results now conn files)))
       (snd (fst (main str_lower results now conn files)))
  /\ feed_ok (fst (fst (main str_lower results now conn files)))
       (snd (fst (main str_lower results now conn files))).
Proof.
  intros Hs Hf. unfold main. destruct results as [|g0 t].
  { cbv [create_run insert_run commit on_view]. cbn [fst snd]. split; [reflexivity|].
    split; [exact Hs | exact Hf]. }
  set (results := g0 :: t).
  pose proof (run_persist_flag conn now results) as Flag.
  pose proof (run_persist_effect conn now results) as [N [G _]].
  pose proof (run_persist_new_entries_ok conn now results) as Ok.
  pose proof (run_persist_urls_kept conn now results) as M.
  destruct (run_persist conn now results) as [conn' [fr ne]].
  cbn [fst snd] in Flag, N, G, Ok, M. destruct fr.
  - cbn [fst snd]. split; [reflexivity|]. split; [now right|].
    apply (feed_ok_kept conn conn'); assumption.
  - rewrite <- Flag in N. destruct ne as [|e es].
    + cbn [fst snd]. split; [reflexivity|]. split; [|now apply (feed_ok_kept conn conn')].
      destruct Hs as [[_ E]|Hs]; [rewrite E in Flag; discriminate|]. right.
      rewrite Hs. f_equal. unfold save_all_games_from_db. f_equal.
      symmetry in N. apply map_eq_nil in N. rewrite G, N. cbn [new_rows].
      rewrite app_nil_r. symmetry. apply listed_refresh.
    + destruct Hf as [C [feed [Ld [K [ND L]]]]].
      pose proof (new_entries_keyed _ Ok) as Kn. cbn [snd] in Kn.
      destruct (save_new_games_file_feed (e :: es) (new_games_json files) feed Kn Ld K)
        as [file' [E [Hfile Hload]]].
      rewrite E. cbn [fst snd all_games_json new_games_json].
      split; [reflexivity|]. split; [now right|].
      destruct Ok as [NDn Ln]. cbn [fst snd] in NDn, Ln.
      destruct (merged_feed_ok _ _ Kn K NDn ND) as [K' [ND' _]].
      unfold feed_ok. cbn [new_games_json].
      split; [destruct Hfile as [->| ->]; [assumption | discriminate]|].
      exists (truly_new feed (e :: es) ++ feed). repeat split; try assumption.
      * intros x Hx. apply in_app_or in Hx. destruct Hx as [Hx|Hx].
        -- apply truly_new_In in Hx. now apply Ln.
        -- destruct (L x Hx) as [u [Eu Hu]]. exists u. split; [assumption | now apply M].
Qed.

Lemma main_runs_keep runs_ conn files (ok0 : bool) :
  in_sync str_lower conn files -> feed_ok conn files ->
  let w := fold_left (fun w r => let '(c, f, ok) := w in
                                 let '(c', f', ok') := main str_lower (fst r) (snd r) c f in
                                 (c', f', ok && ok'))
             runs_ (conn, files, ok0) in
  snd w = ok0 /\ in_sync str_lower (fst (fst w)) (snd (fst w))
  /\ feed_ok (fst (fst w)) (snd (fst w)).
Proof.
  revert conn files. induction runs_ as [|[results now] rest IH]; intros conn files Hs Hf;
    [cbn; split; [reflexivity | split; assumption]|].
  cbn [fold_left fst snd].
  destruct (main_keeps results now conn files Hs Hf) as [Ok [Hs' Hf']].
  destruct (main str_lower results now conn files) as [[c' f'] ok'].
  cbn [fst snd] in *. subst ok'. rewrite andb_true_r. now apply IH.
Qed.

End Main.

(** From a new database and no files, through any sequence of runs of
    [main], whatever [scrape] returned to each: every run completes;
    [All.Games.json] is not there while the catalogue is empty and no
    list was written, and otherwise holds exactly what
    [save_all_games_from_db] would write from the catalogue as it is,
    although it is not rewritten by a run that finds nothing new;
    [New.Games.json] is not there or holds games with a link each, no
    link twice and every link one of the catalogue. *)
Theorem files_follow_store (str_lower : str -> str)
    (runs_ : list (list candidate * str)) :
  let end_ := main_runs str_lower runs_ new_connection no_files in
  snd end_ = true
  /\ in_sync str_lower (fst (fst end_)) (snd (fst end_))
  /\ feed_ok (fst (fst end_)) (snd (fst end_)).
Proof.
  apply (main_runs_keep str_lower runs_ new_connection no_files true).
  - now left.
  - split; [discriminate|]. exists []. repeat split; try constructor; intros g [].
Qed.

(** Four runs: a page, nothing, the page and one game more, the page. *)
Example files_after_four_runs :
  let page := [game "Zebra" "u/z"; game "Apple" "u/a"] in
  let end_ := main_runs (fun s => s)
                [(page, lit "t1"); ([], lit "t2");
                 (page ++ [game "Beta" "u/b"], lit "t3"); (page, lit "t4")]
                new_connection no_files in
  snd (fst end_)
  = {| all_games_json := Some [game "Apple" "u/a"; game "Beta" "u/b"; game "Zebra" "u/z"];
       new_games_json := Holds [game "Beta" "u/b"] |}
  /\ snd end_ = true
  /\ urls (view (fst (fst end_))) = [lit "u/z"; lit "u/a"; lit "u/b"]
  /\ map snapshot_count (runs (view (fst (fst end_)))) = [2; 0; 3; 2]%nat.
Proof. vm_compute. repeat split. Qed.

(** A run of [main] that has nothing to report touches neither file: when
    [scrape] returned nothing, or when the catalogue is not empty and
    holds every link of the batch. The run is recorded all the same, with
    the size of the batch, and the rows of the links met get
    [last_seen = now]. *)
Theorem main_nothing_new (str_lower : str -> str) (results : list candidate) (now : str)
    (conn : connection) (files : artifacts) :
  results = []
  \/ (games (view conn) <> []
      /\ forall g, In g results -> candidate_url g <> [] ->
                   In (candidate_url g) (urls (view conn))) ->
  let end_ := main str_lower results now conn files in
  snd (fst end_) = files
  /\ snd end_ = true
  /\ games (view (fst (fst end_))) = map (refresh now (links results)) (games (view conn))
  /\ runs (view (fst (fst end_)))
     = runs (view conn)
       ++ [{| run_id := next_id (map run_id (runs (view conn))); run_at := now;
              snapshot_count := List.length results |}]
  /\ committed (fst (fst end_)) = view (fst (fst end_)).
Proof.
  intros [->|[Hne H]]; cbv zeta.
  - unfold main. cbv [create_run insert_run commit on_view]. cbn [fst snd view games runs].
    repeat split. symmetry. apply refresh_nothing.
  - unfold main. destruct results as [|g0 t].
    { cbv [create_run insert_run commit on_view]. cbn [fst snd view games runs].
      repeat split. symmetry. apply refresh_nothing. }
    set (results := g0 :: t) in *.
    pose proof (run_persist_flag conn now results) as Flag.
    pose proof (run_persist_known_links conn now results H) as [N G].
    pose proof (run_persist_effect conn now results) as [_ [_ [R _]]].
    pose proof (run_persist_committed conn now results) as C.
    destruct (run_persist conn now results) as [conn' [fr ne]].
    cbn [fst snd] in Flag, N, G, R, C. subst ne.
    destruct (games (view conn)) as [|r l] eqn:E; [congruence|].
    cbn [is_empty] in Flag. subst fr. cbn [fst snd]. now repeat split.
Qed.

Lemma main_nothing_new_witness :
  let end_ := main (fun s => s) [game "Apple II" "u/a/"; game "No link" "/"] (lit "t2")
                catalog_ab no_files in
  snd (fst end_) = no_files
  /\ snd end_ = true
  /\ games (view (fst (fst end_)))
     = map (refresh (lit "t2") (links [game "Apple II" "u/a/"; game "No link" "/"]))
         (games (view catalog_ab))
  /\ runs (view (fst (fst end_)))
     = runs (view catalog_ab)
       ++ [{| run_id := next_id (map run_id (runs (view catalog_ab))); run_at := lit "t2";
              snapshot_count := List.length [game "Apple II" "u/a/"; game "No link" "/"] |}]
  /\ committed (fst (fst end_)) = view (fst (fst end_)).
Proof.
  apply (main_nothing_new (fun s => s) [game "Apple II" "u/a/"; game "No link" "/"]
           (lit "t2") catalog_ab no_files).
  right. split; [discriminate|].
  intros g [<-|[<-|[]]] H; [vm_compute; now left | exfalso; apply H; reflexivity].
Defined.



